(** * smtrun: the SMTL front end of go-z3, embedded in Rocq

    The development follows the three Go files of the repository:
    - [parse.go]   : [parseSmtlFile], the extraction of the body of [main];
    - [process.go] : [processSmtlFile] and the statement and expression
                     compilers below it;
    - [main.go]    : [run], the command-line driver.

    Go values are modelled as follows.  A pointer [*T] is an [option T]
    ([None] is [nil]); a pair of named results [(r, err)] is a Rocq pair;
    an [error] built by [fmt.Errorf] is a constructor of [error] together
    with the text it prints ([message]); the variable table
    [map[string]*z3.AST] is a [gmap string (option z3.AST)]; a run-time
    panic (nil dereference, index out of range, failed type assertion) is
    the outcome [Panic].

    The Go parser ([go/parser], [go/ast], [go/token]), [strconv.Atoi],
    [sort.Strings] and the go-z3 binding are libraries outside the
    repository.  The syntax tree is the part of [go/ast] the program
    inspects; go-z3 terms are kept symbolic: a term records which
    constructor of the binding was called and on which pointers. *)

From Stdlib Require Import ZArith Ascii String List.
From stdpp Require Import base option list gmap strings sorting.

Set Warnings "-register-all".

(** ** go/token *)

Module token.

(** The literal kinds, the operators and the declaration keywords of
    [token.Token] that can reach the program through the syntax tree. *)
Inductive Token : Set :=
| INT | FLOAT | IMAG | CHAR | STRING
| ADD | SUB | MUL | QUO | REM
| AND | OR | XOR | SHL | SHR | AND_NOT
| LAND | LOR | ARROW
| EQL | LSS | GTR | NOT | NEQ | LEQ | GEQ | TILDE
| IMPORT | CONST | TYPE | VAR.

#[global] Instance Token_eq_dec : EqDecision Token.
Proof. solve_decision. Defined.

End token.

(** ** go/ast *)

Module ast.

(** [ast.Expr].  [OtherExpr] stands for the node kinds the program never
    looks into (index, slice, star, function literal, ...); they all
    take the [default] branch of every type switch. *)
Inductive Expr : Type :=
| Ident (Name : string)
| BasicLit (Kind : token.Token) (Value : string)
| BinaryExpr (X : Expr) (Op : token.Token) (Y : Expr)
| UnaryExpr (Op : token.Token) (X : Expr)
| CallExpr (Fun : Expr) (Args : list Expr)
| ParenExpr (X : Expr)
| SelectorExpr (X : Expr) (Sel : string)
| ArrayType (Len : option Expr) (Elt : Expr)
| OtherExpr.

(** [ast.ValueSpec] and the other two kinds of [ast.Spec]. *)
Inductive Spec : Type :=
| ValueSpec (Names : list string) (Type_ : option Expr) (Values : list Expr)
| ImportSpec
| TypeSpec.

(** One entry of a parameter or receiver list. *)
Record Field : Type := mkField { Names : list string; FieldType : Expr }.

(** [ast.Decl], over the type of statements of a function body.
    [Body] is a pointer: a function declared without a body has none. *)
Inductive Decl (S : Type) : Type :=
| GenDecl (Tok : token.Token) (Specs : list Spec)
| FuncDecl (Recv : option (list Field)) (Name : string)
           (Params : list Field) (Body : option (list S))
| BadDecl.
Arguments GenDecl {S} Tok Specs.
Arguments FuncDecl {S} Recv Name Params Body.
Arguments BadDecl {S}.

(** [ast.Stmt].  [OtherStmt] stands for every statement that is neither
    a declaration nor an expression statement. *)
Inductive Stmt : Type :=
| DeclStmt (D : Decl Stmt)
| ExprStmt (X : Expr)
| OtherStmt.

(** [ast.File]: the package name and the top-level declarations. *)
Record File : Type := mkFile { Name : string; Decls : list (Decl Stmt) }.

End ast.

(** ** go-z3 *)

Module z3.

Inductive Sort : Set := IntSort | BoolSort.

(** Terms of the binding, symbolically.  [CtxConst], [CtxInt], [CtxTrue]
    and [CtxFalse] are the methods of [*z3.Context]; the others are the
    methods of [*z3.AST], applied to the receiver and argument pointers
    they were given. *)
Inductive AST : Type :=
| CtxConst (sym : string) (sort : Sort)
| CtxInt (v : Z) (sort : Sort)
| CtxTrue
| CtxFalse
| Add (x y : option AST)
| Sub (x y : option AST)
| Mul (x y : option AST)
| And (x y : option AST)
| Or (x y : option AST)
| Eq (x y : option AST)
| Lt (x y : option AST)
| Gt (x y : option AST)
| Le (x y : option AST)
| Ge (x y : option AST)
| Not (x : option AST)
| Distinct (x : option AST) (ys : list (option AST))
| Implies (x y : option AST)
| Iff (x y : option AST).

(** [z3.LBool], the verdict of [Solver.Check]. *)
Inductive LBool : Set := False | Undef | True.

(** [*z3.Solver]: the pointers passed to [Assert], oldest first. *)
Record Solver : Type := mkSolver { asserted : list (option AST) }.

(** [ctx.NewSolver()]. *)
Definition NewSolver : Solver := mkSolver [].

(** [s.Assert(x)]. *)
Definition Assert (s : Solver) (x : option AST) : Solver :=
  mkSolver (asserted s ++ [x]).

End z3.

(** A [*z3.AST]. *)
Abbreviation ptr := (option z3.AST).

(** ** Errors *)

(** One constructor for each text built by [fmt.Errorf] in the program,
    and one for the errors of [parser.ParseFile]. *)
Inductive error : Type :=
| ErrParse (msg : string)
| ErrNotSupportedPackage (name : string)
| ErrNotSupportedStmt
| ErrNotSupportedTok
| ErrTypeNotSupported (name : string)
| ErrArrayType
| ErrNotSupportedType
| ErrAlreadyDeclared (name : string)
| ErrAssertArity
| ErrNotSupportedFun
| ErrNotSupportedX
| ErrNotSupportedExpr
| ErrUnknownVariable (name : string)
| ErrNotSupportedBop
| ErrTooFewArgument
| ErrDistinctArity
| ErrNotSupportedName
| ErrImpliesArity
| ErrIffArity
| ErrNotSupportedSel.

(** [err.Error()]: the texts, letter for letter. *)
Definition message (e : error) : string :=
  match e with
  | ErrParse msg => msg
  | ErrNotSupportedPackage name => name +:+ " is not supported package"
  | ErrNotSupportedStmt => "not supported Stmt"
  | ErrNotSupportedTok => "not supported Tok of DeclStmt"
  | ErrTypeNotSupported name => "type " +:+ name +:+ " is not supported"
  | ErrArrayType => "ArrayType of VarSpec is not supported"
  | ErrNotSupportedType => "not supported Type of ValueSpec"
  | ErrAlreadyDeclared name => "var " +:+ name +:+ " is already declared"
  | ErrAssertArity => "assert must have single argument"
  | ErrNotSupportedFun => "not supported Fun of CallExpr"
  | ErrNotSupportedX => "not supported X of ExprStmt"
  | ErrNotSupportedExpr => "not supported Expr"
  | ErrUnknownVariable name => name +:+ " is unknown variable"
  | ErrNotSupportedBop => "not supported bop"
  | ErrTooFewArgument => "too few argument of CallExpr"
  | ErrDistinctArity => "distinct must have 2 arguments at least"
  | ErrNotSupportedName => "not supported Name of Indent"
  | ErrImpliesArity => "imples must have signle argument"
  | ErrIffArity => "iff must have single argument"
  | ErrNotSupportedSel => "not supported Sel.Name of SelectorExpr"
  end.

(** The error kinds of the specification, and two more for the errors
    it gives no name to: those of the parser and the expression nodes
    outside the grammar. *)
Inductive ErrorKind : Set :=
| ParseFailure
| UnsupportedExpression
| UnsupportedModule
| DuplicateDeclaration
| UnsupportedType
| UnknownVariable
| UnsupportedStatement
| UnsupportedAssertion
| UnsupportedOperator
| UnsupportedCall
| UnsupportedMethod
| ArityError
| MalformedLiteral.

(** The kind each text of the program falls under.  "not supported Fun of
    CallExpr" is printed both for a statement that calls something other
    than [assert] and for a call whose target is neither a name nor a
    selector; it is filed under the first. *)
Definition kindOf (e : error) : ErrorKind :=
  match e with
  | ErrParse _ => ParseFailure
  | ErrNotSupportedPackage _ => UnsupportedModule
  | ErrNotSupportedStmt | ErrNotSupportedTok | ErrNotSupportedX =>
      UnsupportedStatement
  | ErrNotSupportedExpr => UnsupportedExpression
  | ErrTypeNotSupported _ | ErrArrayType | ErrNotSupportedType => UnsupportedType
  | ErrAlreadyDeclared _ => DuplicateDeclaration
  | ErrAssertArity | ErrNotSupportedFun => UnsupportedAssertion
  | ErrUnknownVariable _ => UnknownVariable
  | ErrNotSupportedBop => UnsupportedOperator
  | ErrTooFewArgument | ErrDistinctArity | ErrImpliesArity | ErrIffArity => ArityError
  | ErrNotSupportedName => UnsupportedCall
  | ErrNotSupportedSel => UnsupportedMethod
  end.

(** ** strconv.Atoi *)

Module strconv.

(** The two failures of [strconv.Atoi]. *)
Inductive NumError : Set := ErrSyntax | ErrRange.

(** The width of Go's [int] on the 64-bit targets. *)
Definition intSize : Z := 64.

Definition digit (c : ascii) : option Z :=
  let n := Z.of_N (N_of_ascii c) in
  if bool_decide (48 ≤ n ≤ 57)%Z then Some (n - 48)%Z else None.

(** The value of a run of decimal digits, most significant first. *)
Fixpoint digits (acc : Z) (s : string) : option Z :=
  match s with
  | EmptyString => Some acc
  | String c s' =>
      match digit c with
      | Some d => digits (acc * 10 + d) s'
      | None => None
      end
  end.

(** [strconv.Atoi(s)]: base 10, an optional sign, at least one digit,
    nothing else; a value outside [int] is a range error and comes back
    clamped. *)
Definition Atoi (s : string) : Z * option NumError :=
  let '(neg, body) :=
    match s with
    | String "-"%char s' => (true, s')
    | String "+"%char s' => (false, s')
    | _ => (false, s)
    end in
  match body with
  | EmptyString => (0%Z, Some ErrSyntax)
  | _ =>
      match digits 0 body with
      | None => (0%Z, Some ErrSyntax)
      | Some n =>
          let v := if neg then (- n)%Z else n in
          if bool_decide (v < - 2 ^ (intSize - 1))%Z
          then ((- 2 ^ (intSize - 1))%Z, Some ErrRange)
          else if bool_decide (2 ^ (intSize - 1) - 1 < v)%Z
          then ((2 ^ (intSize - 1) - 1)%Z, Some ErrRange)
          else (v, None)
      end
  end.

End strconv.

(** ** process.go: the expression compiler *)

(** The variable table of [run], [map[string]*z3.AST]. *)
Abbreviation VarTab := (gmap string ptr).

(** The named results [(r *z3.AST, err error)]. *)
Abbreviation result := (ptr * option error)%type.

(** [processIdent]: [true] and [false] are constants; any other name is
    looked up, and a missing entry reads as [nil]. *)
Definition processIdent (varTab : VarTab) (Name : string) : result :=
  if decide (Name = "true") then (Some z3.CtxTrue, None)
  else if decide (Name = "false") then (Some z3.CtxFalse, None)
  else match varTab !! Name with
       | Some (Some r) => (Some r, None)
       | _ => (None, Some (ErrUnknownVariable Name))
       end.

(** [processBasicLit].  The [err] that receives the failure of [Atoi] is
    declared by [:=] inside the [if] block, so it is not the named
    result: the function returns [err = nil] on every path. *)
Definition processBasicLit (Kind : token.Token) (Value : string) : result :=
  if decide (Kind = token.INT) then
    match strconv.Atoi Value with
    | (intVal, None) => (Some (z3.CtxInt intVal z3.IntSort), None)
    | (_, Some _) => (None, None)
    end
  else (None, None).

(** [processBOP]. *)
Definition processBOP (op : token.Token) (x y : ptr) : result :=
  match op with
  | token.ADD => (Some (z3.Add x y), None)
  | token.SUB => (Some (z3.Sub x y), None)
  | token.MUL => (Some (z3.Mul x y), None)
  | token.LAND => (Some (z3.And x y), None)
  | token.LOR => (Some (z3.Or x y), None)
  | token.EQL => (Some (z3.Eq x y), None)
  | token.LSS => (Some (z3.Lt x y), None)
  | token.GTR => (Some (z3.Gt x y), None)
  | token.NEQ => (Some (z3.Not (Some (z3.Eq x y))), None)
  | token.LEQ => (Some (z3.Le x y), None)
  | token.GEQ => (Some (z3.Ge x y), None)
  | _ => (None, Some ErrNotSupportedBop)
  end.

(** The functions that call [processExpr] back, over the function they
    call. *)
Section Nodes.

Variable processExpr : ast.Expr → result.

(** [processBinaryExpr]: left operand, then right operand, then the
    operator. *)
Definition processBinaryExpr (X : ast.Expr) (Op : token.Token) (Y : ast.Expr)
  : result :=
  match processExpr X with
  | (x, None) =>
      match processExpr Y with
      | (y, None) => processBOP Op x y
      | (_, Some err) => (None, Some err)
      end
  | (_, Some err) => (None, Some err)
  end.

(** [processUnaryExpr]. *)
Definition processUnaryExpr (Op : token.Token) (X : ast.Expr) : result :=
  match processExpr X with
  | (x, None) =>
      match Op with
      | token.NOT => (Some (z3.Not x), None)
      | _ => (None, Some ErrNotSupportedBop)
      end
  | (_, Some err) => (None, Some err)
  end.

(** The first loop of [processCallExpr]: the arguments from left to
    right, up to the first one that fails; [args] holds the pointers
    appended before the [break]. *)
Definition processArgs : list ast.Expr → list ptr * option error :=
  fix loop (Args : list ast.Expr) :=
    match Args with
    | [] => ([], None)
    | arg :: Args' =>
        match processExpr arg with
        | (_, Some err) => ([], Some err)
        | (e, None) => let '(args, err) := loop Args' in (e :: args, err)
        end
    end.

(** The rest of [processCallExpr], from [if len(args) == 0] on, given
    the [args] and [err] the loop left.  No branch returns early: every
    assignment to [err] below overwrites the one before it. *)
Definition processCallee (Fun : ast.Expr) (args : list ptr)
    (err : option error) : result :=
  let err := if decide (length args = 0) then Some ErrTooFewArgument else err in
  match Fun with
  | ast.Ident Name =>
      if decide (Name = "distinct") then
        match args with
        | a0 :: (_ :: _) as rest => (Some (z3.Distinct a0 rest), err)
        | _ => (None, Some ErrDistinctArity)
        end
      else (None, Some ErrNotSupportedName)
  | ast.SelectorExpr X Sel =>
      match processExpr X with
      | (_, Some err) => (None, Some err)
      | (e, None) =>
          if decide (Sel = "implies") then
            match args with
            | [a0] => (Some (z3.Implies e a0), None)
            | _ => (None, Some ErrImpliesArity)
            end
          else if decide (Sel = "iff") then
            match args with
            | [a0] => (Some (z3.Iff e a0), None)
            | _ => (None, Some ErrIffArity)
            end
          else (None, Some ErrNotSupportedSel)
      end
  | _ => (None, Some ErrNotSupportedFun)
  end.

(** [processCallExpr]. *)
Definition processCallExpr (Fun : ast.Expr) (Args : list ast.Expr) : result :=
  let '(args, err) := processArgs Args in
  processCallee Fun args err.

End Nodes.

(** [processExpr]: the type switch over the node. *)
Fixpoint processExpr (varTab : VarTab) (expr : ast.Expr) {struct expr}
  : result :=
  match expr with
  | ast.Ident Name => processIdent varTab Name
  | ast.BasicLit Kind Value => processBasicLit Kind Value
  | ast.BinaryExpr X Op Y => processBinaryExpr (processExpr varTab) X Op Y
  | ast.UnaryExpr Op X => processUnaryExpr (processExpr varTab) Op X
  | ast.CallExpr Fun Args => processCallExpr (processExpr varTab) Fun Args
  | ast.ParenExpr X => processExpr varTab X
  | _ => (None, Some ErrNotSupportedExpr)
  end.

(** ** process.go: the statement compiler *)

(** What a call does: it returns, or the Go run time panics. *)
Inductive outcome (A : Type) : Type :=
| Returns (a : A)
| Panic.
Arguments Returns {A} a.
Arguments Panic {A}.

(** The type switch at the head of [processVarSpec]: the sort, or the
    error that makes the function return before its loop. *)
Definition sortOfType (Type_ : option ast.Expr) : z3.Sort + error :=
  match Type_ with
  | Some (ast.Ident Name) =>
      if decide (Name = "int") then inl z3.IntSort
      else if decide (Name = "bool") then inl z3.BoolSort
      else inr (ErrTypeNotSupported Name)
  | Some (ast.ArrayType _ _) => inr ErrArrayType
  | _ => inr ErrNotSupportedType
  end.

(** The loop of [processVarSpec]: each name in turn; a name already in
    the table stops the loop with an error, any other is bound to a new
    constant of the sort.  The table is updated in place, so the names
    bound before the error stay bound. *)
Fixpoint declareNames (sort : z3.Sort) (varTab : VarTab) (Names : list string)
  : VarTab * option error :=
  match Names with
  | [] => (varTab, None)
  | name :: Names' =>
      match varTab !! name with
      | Some _ => (varTab, Some (ErrAlreadyDeclared name))
      | None =>
          declareNames sort (<[name := Some (z3.CtxConst name sort)]> varTab) Names'
      end
  end.

(** [processVarSpec], on the names and the type of the [*ast.ValueSpec]. *)
Definition processVarSpec (varTab : VarTab) (Names : list string)
    (Type_ : option ast.Expr) : VarTab * option error :=
  match sortOfType Type_ with
  | inr err => (varTab, Some err)
  | inl sort => declareNames sort varTab Names
  end.

(** [processDeclStmt]: only [gd.Specs[0]] is read.  Indexing an empty
    [Specs] and asserting [*ast.ValueSpec] on another kind of spec
    panic. *)
Definition processDeclStmt (varTab : VarTab) (D : ast.Decl ast.Stmt)
  : outcome (VarTab * option error) :=
  match D with
  | ast.GenDecl token.VAR Specs =>
      match Specs with
      | ast.ValueSpec Names Type_ _ :: _ =>
          Returns (processVarSpec varTab Names Type_)
      | _ => Panic
      end
  | _ => Returns (varTab, Some ErrNotSupportedTok)
  end.

(** [processExprStmt]: a call of the name [assert] with one argument;
    the argument is compiled and, when that raised no error, handed to
    [s.Assert]. *)
Definition processExprStmt (s : z3.Solver) (varTab : VarTab) (X : ast.Expr)
  : z3.Solver * option error :=
  match X with
  | ast.CallExpr Fun Args =>
      match Fun with
      | ast.Ident Name =>
          if decide (Name = "assert") then
            match Args with
            | [arg] =>
                match processExpr varTab arg with
                | (_, Some err) => (s, Some err)
                | (x, None) => (z3.Assert s x, None)
                end
            | _ => (s, Some ErrAssertArity)
            end
          else (s, Some ErrNotSupportedFun)
      | _ => (s, Some ErrNotSupportedFun)
      end
  | _ => (s, Some ErrNotSupportedX)
  end.

(** The solver and the table after a statement, and its [err]. *)
Abbreviation state := (z3.Solver * VarTab)%type.

(** [processStmt]. *)
Definition processStmt (s : z3.Solver) (varTab : VarTab) (stmt : ast.Stmt)
  : outcome (state * option error) :=
  match stmt with
  | ast.DeclStmt D =>
      match processDeclStmt varTab D with
      | Returns (varTab', err) => Returns ((s, varTab'), err)
      | Panic => Panic
      end
  | ast.ExprStmt X =>
      let '(s', err) := processExprStmt s varTab X in Returns ((s', varTab), err)
  | ast.OtherStmt => Returns ((s, varTab), Some ErrNotSupportedStmt)
  end.

(** The loop of [processSmtlFile]: the statements in order, left at the
    first [err != nil]. *)
Fixpoint processStmts (s : z3.Solver) (varTab : VarTab) (stmts : list ast.Stmt)
  : outcome (state * option error) :=
  match stmts with
  | [] => Returns ((s, varTab), None)
  | stmt :: stmts' =>
      match processStmt s varTab stmt with
      | Panic => Panic
      | Returns (st, Some err) => Returns (st, Some err)
      | Returns ((s', varTab'), None) => processStmts s' varTab' stmts'
      end
  end.

(** ** parse.go *)

Definition smtlPkgName : string := "smtl".

(** The loop of [parseSmtlFile]: the body of the first function
    declaration named [main]; dereferencing the missing body of a
    declaration without one panics; [stmts] stays [nil] when the loop
    finds nothing. *)
Fixpoint mainBody (Decls : list (ast.Decl ast.Stmt)) : outcome (list ast.Stmt) :=
  match Decls with
  | [] => Returns []
  | ast.FuncDecl _ Name _ Body :: Decls' =>
      if decide (Name = "main") then
        match Body with
        | Some List => Returns List
        | None => Panic
        end
      else mainBody Decls'
  | _ :: Decls' => mainBody Decls'
  end.

(** What [run] reads from outside the program: the constant [VERSION]
    (declared in a file of the repository that is not at hand),
    [parser.ParseFile] on a path, the verdict and the model of the
    solver, and the order in which [range] walks the variable table. *)
Record World : Type := mkWorld {
  VERSION : string;
  ParseFile : string → ast.File + error;
  Check : z3.Solver → z3.LBool;
  Assignments : z3.Solver → gmap string string;
  rangeKeys : VarTab → list string
}.

(** Go leaves the order of [range] over a map open; it visits every key
    once. *)
Definition range_visits_keys (w : World) : Prop :=
  ∀ varTab : VarTab, rangeKeys w varTab ≡ₚ (map_to_list varTab).*1.

(** [parseSmtlFile]. *)
Definition parseSmtlFile (w : World) (smtFilePath : string)
  : outcome (list ast.Stmt * option error) :=
  match ParseFile w smtFilePath with
  | inr err => Returns ([], Some err)
  | inl fileNode =>
      if decide (ast.Name fileNode = smtlPkgName) then
        match mainBody (ast.Decls fileNode) with
        | Returns stmts => Returns (stmts, None)
        | Panic => Panic
        end
      else Returns ([], Some (ErrNotSupportedPackage (ast.Name fileNode)))
  end.

(** [processSmtlFile]: [s] is still [nil] when the parse fails; after
    that the solver is returned next to whatever [err] the loop left. *)
Definition processSmtlFile (w : World) (varTab : VarTab) (smtFilePath : string)
  : outcome (option z3.Solver * VarTab * option error) :=
  match parseSmtlFile w smtFilePath with
  | Panic => Panic
  | Returns (_, Some err) => Returns (None, varTab, Some err)
  | Returns (stmts, None) =>
      match processStmts z3.NewSolver varTab stmts with
      | Panic => Panic
      | Returns ((s, varTab'), err) => Returns (Some s, varTab', err)
      end
  end.

(** ** main.go *)

(** [sort.Strings]: increasing order of the bytes. *)
Definition sortStrings (names : list string) : list string :=
  merge_sort String.le names.

(** One [fmt.Printf("%s = %s\n", name, assignments[name])]; a name the
    model does not hold reads as the empty string. *)
Definition modelLine (assignments : gmap string string) (name : string) : string :=
  name +:+ " = " +:+ default "" (assignments !! name).

(** What a run leaves behind: the exit code and the lines written to the
    two streams. *)
Record Exit : Type := mkExit {
  code : Z;
  stdout : list string;
  stderr : list string
}.

(** [run], on [os.Args]. *)
Definition run (w : World) (Args : list string) : outcome Exit :=
  match Args with
  | [] => Panic
  | [arg0] => Returns (mkExit 1 [] ["Usage: " +:+ arg0 +:+ " file.smt"])
  | _ :: smtlFilePath :: _ =>
      let banner := "smtrun " +:+ VERSION w in
      match processSmtlFile w ∅ smtlFilePath with
      | Panic => Panic
      | Returns (_, _, Some err) => Returns (mkExit 2 [banner] [message err])
      | Returns (None, _, None) => Panic
      | Returns (Some solver, varTab, None) =>
          match Check w solver with
          | z3.True =>
              let assignments := Assignments w solver in
              let names := sortStrings (rangeKeys w varTab) in
              Returns (mkExit 0 (banner :: (modelLine assignments <$> names)) [])
          | _ => Returns (mkExit 3 [banner; "Unsolveable"] [])
          end
      end
  end.

(** ** The instrumented expression compiler

    [processExprT] is [processExpr] with a ghost log: the nodes
    [processExpr] is called on, in the order of the calls.  The results
    are those of [processExpr] ([processExprT_result]). *)

Abbreviation logged := (list ast.Expr * result)%type.

Section NodesT.

Variable processExprT : ast.Expr → logged.

Definition processBinaryExprT (X : ast.Expr) (Op : token.Token) (Y : ast.Expr)
  : logged :=
  match processExprT X with
  | (lx, (x, None)) =>
      match processExprT Y with
      | (ly, (y, None)) => (lx ++ ly, processBOP Op x y)
      | (ly, (_, Some err)) => (lx ++ ly, (None, Some err))
      end
  | (lx, (_, Some err)) => (lx, (None, Some err))
  end.

Definition processUnaryExprT (Op : token.Token) (X : ast.Expr) : logged :=
  match processExprT X with
  | (lx, (x, None)) =>
      (lx, match Op with
           | token.NOT => (Some (z3.Not x), None)
           | _ => (None, Some ErrNotSupportedBop)
           end)
  | (lx, (_, Some err)) => (lx, (None, Some err))
  end.

Definition processArgsT
  : list ast.Expr → list ast.Expr * (list ptr * option error) :=
  fix loop (Args : list ast.Expr) :=
    match Args with
    | [] => ([], ([], None))
    | arg :: Args' =>
        match processExprT arg with
        | (la, (_, Some err)) => (la, ([], Some err))
        | (la, (e, None)) =>
            let '(ls, (args, err)) := loop Args' in (la ++ ls, (e :: args, err))
        end
    end.

Definition processCalleeT (Fun : ast.Expr) (args : list ptr)
    (err : option error) : logged :=
  let err := if decide (length args = 0) then Some ErrTooFewArgument else err in
  match Fun with
  | ast.Ident Name =>
      ([], if decide (Name = "distinct") then
             match args with
             | a0 :: (_ :: _) as rest => (Some (z3.Distinct a0 rest), err)
             | _ => (None, Some ErrDistinctArity)
             end
           else (None, Some ErrNotSupportedName))
  | ast.SelectorExpr X Sel =>
      match processExprT X with
      | (lx, (_, Some err)) => (lx, (None, Some err))
      | (lx, (e, None)) =>
          (lx, if decide (Sel = "implies") then
                 match args with
                 | [a0] => (Some (z3.Implies e a0), None)
                 | _ => (None, Some ErrImpliesArity)
                 end
               else if decide (Sel = "iff") then
                 match args with
                 | [a0] => (Some (z3.Iff e a0), None)
                 | _ => (None, Some ErrIffArity)
                 end
               else (None, Some ErrNotSupportedSel))
      end
  | _ => ([], (None, Some ErrNotSupportedFun))
  end.

Definition processCallExprT (Fun : ast.Expr) (Args : list ast.Expr) : logged :=
  let '(ls, (args, err)) := processArgsT Args in
  let '(lf, r) := processCalleeT Fun args err in
  (ls ++ lf, r).

End NodesT.

Fixpoint processExprT (varTab : VarTab) (expr : ast.Expr) {struct expr}
  : logged :=
  let '(l, r) :=
    match expr with
    | ast.Ident Name => ([], processIdent varTab Name)
    | ast.BasicLit Kind Value => ([], processBasicLit Kind Value)
    | ast.BinaryExpr X Op Y => processBinaryExprT (processExprT varTab) X Op Y
    | ast.UnaryExpr Op X => processUnaryExprT (processExprT varTab) Op X
    | ast.CallExpr Fun Args => processCallExprT (processExprT varTab) Fun Args
    | ast.ParenExpr X => processExprT varTab X
    | _ => ([], (None, Some ErrNotSupportedExpr))
    end in
  (expr :: l, r).

(** ** Notions used in the theorems *)

(** The table after the names have been bound, in order, to new
    constants of the sort. *)
Definition declared (sort : z3.Sort) (Names : list string) (varTab : VarTab)
  : VarTab :=
  foldl (λ vt name, <[name := Some (z3.CtxConst name sort)]> vt) varTab Names.

(** The statement [var Names Type_]. *)
Definition varStmt (Names : list string) (Type_ : string) : ast.Stmt :=
  ast.DeclStmt
    (ast.GenDecl token.VAR [ast.ValueSpec Names (Some (ast.Ident Type_)) []]).

(** The statement [assert(arg)]. *)
Definition assertStmt (arg : ast.Expr) : ast.Stmt :=
  ast.ExprStmt (ast.CallExpr (ast.Ident "assert") [arg]).

(** The names a statement declares: those of the first spec of a [var]
    declaration. *)
Definition declaredBy (stmt : ast.Stmt) : list string :=
  match stmt with
  | ast.DeclStmt (ast.GenDecl token.VAR (ast.ValueSpec Names _ _ :: _)) => Names
  | _ => []
  end.

(** The names a statement list declares. *)
Definition declaredNames (stmts : list ast.Stmt) : list string :=
  stmts ≫= declaredBy.

(** The condition under which the loop of [parseSmtlFile] stops at a
    declaration: a function declaration whose name is [main]. *)
Definition isMain (D : ast.Decl ast.Stmt) : bool :=
  match D with
  | ast.FuncDecl _ Name _ _ => bool_decide (Name = "main")
  | _ => false
  end.

(** The keys of the table in the order of [map_to_list]: one of the
    orders [range] may take. *)
Definition keysOf (varTab : VarTab) : list string := (map_to_list varTab).*1.

(** A world in which every path parses to [file] and the solver answers
    [verdict] with the model [model]. *)
Definition sampleWorld (file : ast.File) (verdict : z3.LBool)
    (model : gmap string string) : World :=
  mkWorld "0.1" (λ _, inl file) (λ _, verdict) (λ _, model) keysOf.

(** [package smtl; func main() { List }]. *)
Definition smtlFile (List : list ast.Stmt) : ast.File :=
  ast.mkFile "smtl" [ast.FuncDecl None "main" [] (Some List)].

(** The file [package smtl; func main(x int) { var a int }]. *)
Definition mainWithParameter : ast.File :=
  ast.mkFile "smtl"
    [ast.FuncDecl None "main" [ast.mkField ["x"] (ast.Ident "int")]
                  (Some [varStmt ["a"] "int"])].

(** The call [true.implies(false)]. *)
Definition trueImpliesFalse : ast.Expr :=
  ast.CallExpr (ast.SelectorExpr (ast.Ident "true") "implies") [ast.Ident "false"].

(** Every entry of the table is the constant named by its key, of sort
    Int or Bool, and never a nil pointer. *)
Definition wfTable (varTab : VarTab) : Prop :=
  ∀ name p, varTab !! name = Some p →
            p = Some (z3.CtxConst name z3.IntSort)
            ∨ p = Some (z3.CtxConst name z3.BoolSort).

(** The arguments of the expression statements of a list, in order. *)
Definition exprStmts (stmts : list ast.Stmt) : list ast.Expr :=
  stmts ≫= λ stmt, match stmt with ast.ExprStmt X => [X] | _ => [] end.

(** The operators [processBOP] has a case for. *)
Definition binaryOperators : list token.Token :=
  [token.ADD; token.SUB; token.MUL; token.LAND; token.LOR; token.EQL;
   token.LSS; token.GTR; token.NEQ; token.LEQ; token.GEQ].

(** The errors built inside [processExpr] and the functions under it. *)
Definition isExprError (e : error) : bool :=
  match e with
  | ErrUnknownVariable _ | ErrNotSupportedBop | ErrDistinctArity
  | ErrNotSupportedName | ErrImpliesArity | ErrIffArity | ErrNotSupportedSel
  | ErrNotSupportedFun | ErrNotSupportedExpr => true
  | _ => false
  end.

(** The bounds of Go's [int]. *)
Definition minInt : Z := (- 2 ^ (strconv.intSize - 1))%Z.
Definition maxInt : Z := (2 ^ (strconv.intSize - 1) - 1)%Z.

(** The pointers the arguments compile to, in order. *)
Definition compiled (varTab : VarTab) (Args : list ast.Expr) : list ptr :=
  (λ arg, (processExpr varTab arg).1) <$> Args.

(** The nodes visited while the arguments are compiled one after the
    other. *)
Definition visited (varTab : VarTab) (Args : list ast.Expr) : list ast.Expr :=
  Args ≫= λ arg, (processExprT varTab arg).1.

(** A name that [processIdent] does not resolve: it is not reserved and
    the table has no pointer for it. *)
Definition unresolved (varTab : VarTab) (name : string) : Prop :=
  name ≠ "true" ∧ name ≠ "false"
  ∧ (varTab !! name = None ∨ varTab !! name = Some None).


(** ** Induction over expressions *)

(** Structural induction that reaches the arguments of a call and the
    receiver under its selector, the two places [processCallExpr]
    recurses into. *)
Lemma Expr_call_ind (P : ast.Expr → Prop)
  (HIdent : ∀ Name, P (ast.Ident Name))
  (HLit : ∀ Kind Value, P (ast.BasicLit Kind Value))
  (HBin : ∀ X Op Y, P X → P Y → P (ast.BinaryExpr X Op Y))
  (HUn : ∀ Op X, P X → P (ast.UnaryExpr Op X))
  (HCall : ∀ Fun Args,
      (∀ X Sel, Fun = ast.SelectorExpr X Sel → P X) →
      Forall P Args → P (ast.CallExpr Fun Args))
  (HParen : ∀ X, P X → P (ast.ParenExpr X))
  (HSel : ∀ X Sel, P (ast.SelectorExpr X Sel))
  (HArr : ∀ Len Elt, P (ast.ArrayType Len Elt))
  (HOther : P ast.OtherExpr) :
  ∀ e, P e.
Proof.
  fix IH 1. intros [Name|Kind Value|X Op Y|Op X|Fun Args|X|X Sel|Len Elt|].
  - apply HIdent.
  - apply HLit.
  - apply HBin; apply IH.
  - apply HUn; apply IH.
  - apply HCall.
    + destruct Fun; intros X' Sel' E; try discriminate E.
      injection E as <- <-. apply IH.
    + induction Args as [|a Args IHArgs]; constructor; [apply IH | exact IHArgs].
  - apply HParen; apply IH.
  - apply HSel.
  - apply HArr.
  - apply HOther.
Qed.

(** ** The log does not change the results *)

Lemma processArgsT_result varTab Args :
  Forall (λ e, (processExprT varTab e).2 = processExpr varTab e) Args →
  (processArgsT (processExprT varTab) Args).2
  = processArgs (processExpr varTab) Args.
Proof.
  induction 1 as [|arg Args Harg _ IH]; [reflexivity|].
  cbn [processArgsT processArgs]. rewrite <- Harg.
  destruct (processExprT varTab arg) as [la [e [err|]]]; [reflexivity|].
  cbn [snd]. rewrite <- IH.
  destruct (processArgsT (processExprT varTab) Args) as [ls [args err]].
  reflexivity.
Qed.

Lemma processCalleeT_result varTab Fun args err :
  (∀ X Sel, Fun = ast.SelectorExpr X Sel →
            (processExprT varTab X).2 = processExpr varTab X) →
  (processCalleeT (processExprT varTab) Fun args err).2
  = processCallee (processExpr varTab) Fun args err.
Proof.
  intros HX. destruct Fun; try reflexivity.
  cbn [processCalleeT processCallee]. rewrite <- (HX _ _ eq_refl).
  destruct (processExprT varTab Fun) as [lx [e [err'|]]]; reflexivity.
Qed.

Lemma processExprT_result varTab expr :
  (processExprT varTab expr).2 = processExpr varTab expr.
Proof.
  induction expr as [Name|Kind Value|X Op Y IHX IHY|Op X IHX|Fun Args IHFun IHArgs
                    |X IHX|X Sel|Len Elt|] using Expr_call_ind;
    try reflexivity.
  - cbn [processExprT processExpr]. unfold processBinaryExprT, processBinaryExpr.
    rewrite <- IHX, <- IHY.
    destruct (processExprT varTab X) as [lx [x [err|]]]; [reflexivity|].
    destruct (processExprT varTab Y) as [ly [y [err|]]]; reflexivity.
  - cbn [processExprT processExpr]. unfold processUnaryExprT, processUnaryExpr.
    rewrite <- IHX.
    destruct (processExprT varTab X) as [lx [x [err|]]]; reflexivity.
  - cbn [processExprT processExpr]. unfold processCallExprT, processCallExpr.
    rewrite <- (processArgsT_result _ _ IHArgs).
    destruct (processArgsT (processExprT varTab) Args) as [ls [args err]].
    cbn [snd]. rewrite <- (processCalleeT_result _ _ _ _ IHFun).
    destruct (processCalleeT (processExprT varTab) Fun args err) as [lf r].
    reflexivity.
  - cbn [processExprT processExpr]. rewrite <- IHX.
    destruct (processExprT varTab X) as [l r]. reflexivity.
Qed.

(** ** Literals *)

(** [processBasicLit] never sets its [err]. *)
Lemma processBasicLit_err_nil Kind Value : (processBasicLit Kind Value).2 = None.
Proof.
  unfold processBasicLit. case_decide; [|reflexivity].
  destruct (strconv.Atoi Value) as [intVal [e|]]; reflexivity.
Qed.

(** A literal that [Atoi] accepts is the integer constant of its value. *)
Lemma processBasicLit_INT_parsed Value intVal :
  strconv.Atoi Value = (intVal, None) →
  processBasicLit token.INT Value = (Some (z3.CtxInt intVal z3.IntSort), None).
Proof. intros H. unfold processBasicLit. rewrite H. reflexivity. Qed.

(** A literal that [Atoi] rejects is a nil term and a nil error. *)
Lemma processBasicLit_INT_rejected Value intVal e :
  strconv.Atoi Value = (intVal, Some e) →
  processBasicLit token.INT Value = (None, None).
Proof. intros H. unfold processBasicLit. rewrite H. reflexivity. Qed.

(** C1, at the literals [99999999999999999999] and [0x1F].  The Go
    parser gives both the kind [INT]; [strconv.Atoi] rejects the text of
    the first as out of range and that of the second as not decimal;
    [processExpr] nevertheless returns no error (and no term), and a
    statement asserting [0x1F == 31] compiles without error, the nil
    pointer being handed to the solver's equality.  No literal at all
    makes [processExpr] return an error. *)
Theorem processBasicLit_rejected_literal_raises_nothing (varTab : VarTab) :
  (strconv.Atoi "99999999999999999999").2 = Some strconv.ErrRange
  ∧ processExpr varTab (ast.BasicLit token.INT "99999999999999999999")
    = (None, None)
  ∧ (strconv.Atoi "0x1F").2 = Some strconv.ErrSyntax
  ∧ processExpr varTab (ast.BasicLit token.INT "0x1F") = (None, None)
  ∧ processStmts z3.NewSolver varTab
      [assertStmt (ast.BinaryExpr (ast.BasicLit token.INT "0x1F") token.EQL
                                  (ast.BasicLit token.INT "31"))]
    = Returns
        ((z3.mkSolver [Some (z3.Eq None (Some (z3.CtxInt 31 z3.IntSort)))],
          varTab), None)
  ∧ (∀ Kind Value, (processExpr varTab (ast.BasicLit Kind Value)).2 = None).
Proof. repeat split. intros Kind Value. apply processBasicLit_err_nil. Qed.

(** C10.  A literal whose kind is not [INT] compiles to a nil term and a
    nil error; the nil pointer then reaches the operation around it: the
    solver's negation, its addition, and [Assert] itself. *)
Theorem processBasicLit_other_kind_is_nil
    (varTab : VarTab) (Kind : token.Token) (Value : string) :
  Kind ≠ token.INT →
  processExpr varTab (ast.BasicLit Kind Value) = (None, None)
  ∧ processExpr varTab (ast.UnaryExpr token.NOT (ast.BasicLit Kind Value))
    = (Some (z3.Not None), None)
  ∧ (∀ Y y, processExpr varTab Y = (y, None) →
       processExpr varTab (ast.BinaryExpr (ast.BasicLit Kind Value) token.ADD Y)
       = (Some (z3.Add None y), None))
  ∧ (∀ s, processExprStmt s varTab
            (ast.CallExpr (ast.Ident "assert") [ast.BasicLit Kind Value])
          = (z3.Assert s None, None)).
Proof.
  intros HK.
  assert (Hlit : processBasicLit Kind Value = (None, None))
    by (unfold processBasicLit; case_decide; [contradiction|reflexivity]).
  repeat split.
  - exact Hlit.
  - cbn [processExpr]. unfold processUnaryExpr. cbn [processExpr].
    rewrite Hlit. reflexivity.
  - intros Y y HY. cbn [processExpr]. unfold processBinaryExpr.
    cbn [processExpr]. rewrite Hlit, HY. reflexivity.
  - intros s. cbn [processExprStmt]. rewrite decide_True by reflexivity.
    cbn [processExpr]. rewrite Hlit. reflexivity.
Qed.

Lemma processBasicLit_other_kind_is_nil_witness :
  token.FLOAT ≠ token.INT
  ∧ processExpr ∅ (ast.BasicLit token.FLOAT "1.5") = (None, None)
  ∧ processExpr ∅ (ast.BinaryExpr (ast.BasicLit token.FLOAT "1.5") token.ADD
                                  (ast.Ident "true"))
    = (Some (z3.Add None (Some z3.CtxTrue)), None).
Proof.
  assert (H : token.FLOAT ≠ token.INT) by discriminate.
  split; [exact H|].
  destruct (processBasicLit_other_kind_is_nil ∅ token.FLOAT "1.5" H)
    as (H1 & _ & H3 & _).
  split; [exact H1|].
  apply H3. reflexivity.
Defined.

(** ** Calls *)

(** A call of a name other than [distinct] is refused whatever its
    arguments are. *)
Lemma processCallExpr_other_name varTab Name Args :
  Name ≠ "distinct" →
  processExpr varTab (ast.CallExpr (ast.Ident Name) Args)
  = (None, Some ErrNotSupportedName).
Proof.
  intros HN. cbn [processExpr]. unfold processCallExpr.
  destruct (processArgs (processExpr varTab) Args) as [args err].
  unfold processCallee. rewrite decide_False by exact HN. reflexivity.
Qed.

(** [distinct] with no argument or with one. *)
Lemma processCallExpr_distinct_short varTab Args :
  length Args ≤ 1 →
  processExpr varTab (ast.CallExpr (ast.Ident "distinct") Args)
  = (None, Some ErrDistinctArity).
Proof.
  intros HL. cbn [processExpr]. unfold processCallExpr.
  destruct Args as [|arg [|arg' Args]]; [reflexivity| |cbn in HL; lia].
  cbn [processArgs].
  destruct (processExpr varTab arg) as [e [err|]]; reflexivity.
Qed.

(** The error set by [if len(args) == 0] never leaves [processExpr]:
    every path through the [switch] that follows overwrites it. *)
Lemma processArgs_never_too_few varTab Args :
  Forall (λ e, (processExpr varTab e).2 ≠ Some ErrTooFewArgument) Args →
  (processArgs (processExpr varTab) Args).2 ≠ Some ErrTooFewArgument.
Proof.
  induction 1 as [|arg Args Harg _ IH]; [discriminate|].
  cbn [processArgs].
  destruct (processExpr varTab arg) as [e [err|]]; [exact Harg|].
  destruct (processArgs (processExpr varTab) Args) as [args err]. exact IH.
Qed.

Lemma processExpr_never_too_few varTab expr :
  (processExpr varTab expr).2 ≠ Some ErrTooFewArgument.
Proof.
  induction expr as [Name|Kind Value|X Op Y IHX IHY|Op X IHX|Fun Args IHFun IHArgs
                    |X IHX|X Sel|Len Elt|] using Expr_call_ind;
    try discriminate.
  - cbn [processExpr]. unfold processIdent.
    repeat case_decide; try discriminate.
    destruct (varTab !! Name) as [[r|]|]; discriminate.
  - cbn [processExpr]. rewrite processBasicLit_err_nil. discriminate.
  - cbn [processExpr]. unfold processBinaryExpr.
    destruct (processExpr varTab X) as [x [err|]]; [exact IHX|].
    destruct (processExpr varTab Y) as [y [err|]]; [exact IHY|].
    destruct Op; discriminate.
  - cbn [processExpr]. unfold processUnaryExpr.
    destruct (processExpr varTab X) as [x [err|]]; [exact IHX|].
    destruct Op; discriminate.
  - cbn [processExpr]. unfold processCallExpr.
    pose proof (processArgs_never_too_few _ _ IHArgs) as Hargs.
    destruct (processArgs (processExpr varTab) Args) as [args err].
    cbn [snd] in Hargs. unfold processCallee.
    destruct Fun; try discriminate.
    + case_decide; [|discriminate].
      destruct args as [|a0 [|a1 args]]; try discriminate.
      rewrite decide_False by discriminate. exact Hargs.
    + specialize (IHFun _ _ eq_refl).
      destruct (processExpr varTab Fun) as [e [err'|]]; [exact IHFun|].
      repeat case_decide; destruct args as [|a0 [|a1 args]]; discriminate.
  - exact IHX.
Qed.

(** C4, at the call [foo()].  A call without arguments of a name other
    than [distinct] fails with "not supported Name of Indent", the
    unsupported-call error, and not with an arity error: the arity error
    set for an empty argument list has been overwritten, as it is on
    every path, so that no expression ever fails with it. *)
Theorem processCallExpr_no_argument_other_name (varTab : VarTab) :
  processExpr varTab (ast.CallExpr (ast.Ident "foo") [])
  = (None, Some ErrNotSupportedName)
  ∧ kindOf ErrNotSupportedName = UnsupportedCall
  ∧ kindOf ErrNotSupportedName ≠ ArityError
  ∧ (∀ expr, (processExpr varTab expr).2 ≠ Some ErrTooFewArgument).
Proof.
  split; [reflexivity|]. split; [reflexivity|]. split; [discriminate|].
  apply processExpr_never_too_few.
Qed.

(** ** Declarations *)




(** Names that are new and pairwise different are all bound. *)
Lemma declareNames_fresh sort Names (varTab : VarTab) :
  NoDup Names → (∀ n, n ∈ Names → varTab !! n = None) →
  declareNames sort varTab Names = (declared sort Names varTab, None).
Proof.
  intros Hnd. revert varTab.
  induction Hnd as [|n Names Hn Hnd IH]; intros varTab Hfresh; [reflexivity|].
  cbn [declareNames declared foldl].
  rewrite (Hfresh n) by apply list_elem_of_here.
  apply IH. intros m Hm. rewrite lookup_insert_ne by (intros ->; contradiction).
  apply Hfresh, list_elem_of_further, Hm.
Qed.







(** ** Statements *)

(** A statement that fails has asserted nothing. *)
Lemma processExprStmt_error_keeps_solver s (varTab : VarTab) X s' err :
  processExprStmt s varTab X = (s', Some err) → s' = s.
Proof.
  unfold processExprStmt.
  destruct X as [| | | |Fun Args| | | |]; try (intros [= <- _]; reflexivity).
  destruct Fun; try (intros [= <- _]; reflexivity).
  case_decide; [|intros [= <- _]; reflexivity].
  destruct Args as [|arg [|arg' Args]]; try (intros [= <- _]; reflexivity).
  destruct (processExpr varTab arg) as [x [e|]]; [|discriminate].
  intros [= <- _]; reflexivity.
Qed.

Lemma processStmt_error_keeps_solver s (varTab : VarTab) stmt s' varTab' err :
  processStmt s varTab stmt = Returns ((s', varTab'), Some err) → s' = s.
Proof.
  destruct stmt as [D|X|]; cbn [processStmt].
  - destruct (processDeclStmt varTab D) as [[vt e]|]; [|discriminate].
    intros [= <- _ _]; reflexivity.
  - destruct (processExprStmt s varTab X) as [s1 e] eqn:HX.
    intros [= <- _ ->]. eapply processExprStmt_error_keeps_solver, HX.
  - intros [= <- _ _]; reflexivity.
Qed.

(** Statements that all succeed hand their state to what follows. *)
Lemma processStmts_app s (varTab : VarTab) pre stmts s1 (vt1 : VarTab) :
  processStmts s varTab pre = Returns ((s1, vt1), None) →
  processStmts s varTab (pre ++ stmts) = processStmts s1 vt1 stmts.
Proof.
  revert s varTab. induction pre as [|stmt pre IH]; intros s varTab.
  - intros [= -> ->]; reflexivity.
  - cbn [app processStmts].
    destruct (processStmt s varTab stmt) as [[[s' vt'] [e|]]|]; try discriminate.
    apply IH.
Qed.

(** The banner [run] prints before it reads the file. *)
Lemma run_on_error w arg0 path rest os (varTab : VarTab) err :
  processSmtlFile w ∅ path = Returns (os, varTab, Some err) →
  run w (arg0 :: path :: rest)
  = Returns (mkExit 2 ["smtrun " +:+ VERSION w] [message err]).
Proof. intros H. cbn [run]. rewrite H. destruct os; reflexivity. Qed.

(** C2.  When the statements before [bad] compile and [bad] fails with
    [err], the compilation of the whole list stops there: [err] is the
    one error returned, whatever follows [bad]; the solver returned next
    to it is the one the statements before [bad] left, so neither [bad]
    nor a later statement has asserted anything; and [run] leaves with
    code 2 after printing that error alone, without consulting the
    solver. *)
Theorem processSmtlFile_fail_fast
    (w : World) (varTab : VarTab) (path : string)
    (pre : list ast.Stmt) (bad : ast.Stmt) (post : list ast.Stmt)
    (s1 : z3.Solver) (vt1 : VarTab) (st2 : state) (err : error) :
  parseSmtlFile w path = Returns (pre ++ bad :: post, None) →
  processStmts z3.NewSolver varTab pre = Returns ((s1, vt1), None) →
  processStmt s1 vt1 bad = Returns (st2, Some err) →
  processSmtlFile w varTab path = Returns (Some s1, st2.2, Some err)
  ∧ (∀ post', processStmts z3.NewSolver varTab (pre ++ bad :: post')
              = Returns ((s1, st2.2), Some err))
  ∧ (varTab = ∅ →
     ∀ arg0 rest, run w (arg0 :: path :: rest)
                  = Returns (mkExit 2 ["smtrun " +:+ VERSION w] [message err])).
Proof.
  intros Hparse Hpre Hbad. destruct st2 as [s2 vt2].
  pose proof (processStmt_error_keeps_solver _ _ _ _ _ _ Hbad) as ->.
  assert (Hall : ∀ post', processStmts z3.NewSolver varTab (pre ++ bad :: post')
                          = Returns ((s1, vt2), Some err)).
  { intros post'. rewrite (processStmts_app _ _ _ _ _ _ Hpre).
    cbn [processStmts]. rewrite Hbad. reflexivity. }
  assert (Hfile : processSmtlFile w varTab path = Returns (Some s1, vt2, Some err)).
  { unfold processSmtlFile. rewrite Hparse, Hall. reflexivity. }
  split; [exact Hfile|]. split; [exact Hall|].
  intros -> arg0 rest. eapply run_on_error, Hfile.
Qed.

Lemma processSmtlFile_fail_fast_witness :
  let w := sampleWorld
             (smtlFile [assertStmt (ast.Ident "true"); assertStmt (ast.Ident "y");
                        assertStmt (ast.Ident "false")])
             z3.True ∅ in
  processSmtlFile w ∅ "a.smtl"
  = Returns (Some (z3.mkSolver [Some z3.CtxTrue]), ∅, Some (ErrUnknownVariable "y"))
  ∧ run w ["smtrun"; "a.smtl"]
    = Returns (mkExit 2 ["smtrun 0.1"] ["y is unknown variable"]).
Proof.
  intros w.
  assert (Hparse : parseSmtlFile w "a.smtl"
                   = Returns ([assertStmt (ast.Ident "true")]
                                ++ assertStmt (ast.Ident "y")
                                :: [assertStmt (ast.Ident "false")], None))
    by reflexivity.
  assert (Hpre : processStmts z3.NewSolver ∅ [assertStmt (ast.Ident "true")]
                 = Returns ((z3.mkSolver [Some z3.CtxTrue], ∅), None))
    by reflexivity.
  assert (Hbad : processStmt (z3.mkSolver [Some z3.CtxTrue]) ∅
                   (assertStmt (ast.Ident "y"))
                 = Returns ((z3.mkSolver [Some z3.CtxTrue], ∅),
                            Some (ErrUnknownVariable "y")))
    by (vm_compute; reflexivity).
  destruct (processSmtlFile_fail_fast w ∅ "a.smtl" _ _ _ _ _ _ _
              Hparse Hpre Hbad) as (H1 & _ & H3).
  split; [exact H1|]. exact (H3 eq_refl "smtrun" []).
Defined.

(** ** The body of main *)

Lemma mainBody_skip D Decls : isMain D = false → mainBody (D :: Decls) = mainBody Decls.
Proof.
  destruct D as [Tok Specs|Recv Name Params Body|]; try reflexivity.
  cbn [isMain mainBody]. intros H%bool_decide_eq_false.
  rewrite decide_False by exact H. reflexivity.
Qed.

Lemma mainBody_first pre Recv Params List post :
  Forall (λ D, isMain D = false) pre →
  mainBody (pre ++ ast.FuncDecl Recv "main" Params (Some List) :: post)
  = Returns List.
Proof.
  induction 1 as [|D pre HD _ IH]; [reflexivity|].
  cbn [app]. rewrite mainBody_skip by exact HD. exact IH.
Qed.

Lemma mainBody_none Decls :
  Forall (λ D, isMain D = false) Decls → mainBody Decls = Returns [].
Proof.
  induction 1 as [|D Decls HD _ IH]; [reflexivity|].
  rewrite mainBody_skip by exact HD. exact IH.
Qed.

(** C5 does not hold as stated: the only function named [main] of this
    file has a parameter, so the file has no function named [main]
    without parameters, and yet its body is what [parseSmtlFile]
    returns, not the empty list. *)
Lemma parseSmtlFile_main_with_parameter :
  (∀ Recv Params Body,
      ast.FuncDecl Recv "main" Params Body ∈ ast.Decls mainWithParameter →
      Params ≠ [])
  ∧ parseSmtlFile (sampleWorld mainWithParameter z3.True ∅) "a.smtl"
    = Returns ([varStmt ["a"] "int"], None)
  ∧ parseSmtlFile (sampleWorld mainWithParameter z3.True ∅) "a.smtl"
    ≠ Returns ([], None).
Proof.
  split; [|split; [reflexivity|discriminate]].
  intros Recv Params Body [H|H]%elem_of_cons.
  - injection H as -> -> ->. discriminate.
  - apply elem_of_nil in H as [].
Qed.

(** C5, amended.  In a file of package [smtl], the body returned is that
    of the first top-level function declaration named [main], whatever
    its parameters and receiver, statement for statement; when no
    top-level function declaration is named [main], the list returned is
    empty and there is no error. *)
Theorem parseSmtlFile_first_main (w : World) (path : string) (file : ast.File) :
  ParseFile w path = inl file →
  ast.Name file = smtlPkgName →
  (∀ pre Recv Params List post,
      ast.Decls file
      = pre ++ ast.FuncDecl Recv "main" Params (Some List) :: post →
      Forall (λ D, isMain D = false) pre →
      parseSmtlFile w path = Returns (List, None))
  ∧ (Forall (λ D, isMain D = false) (ast.Decls file) →
     parseSmtlFile w path = Returns ([], None)).
Proof.
  intros Hparse Hname. unfold parseSmtlFile. rewrite Hparse.
  rewrite decide_True by exact Hname. split.
  - intros pre Recv Params List post -> Hpre.
    rewrite mainBody_first by exact Hpre. reflexivity.
  - intros Hnone. rewrite mainBody_none by exact Hnone. reflexivity.
Qed.

Lemma parseSmtlFile_first_main_witness :
  let file :=
    ast.mkFile "smtl"
      [ast.GenDecl token.IMPORT [ast.ImportSpec];
       ast.FuncDecl None "helper" [] (Some [ast.OtherStmt]);
       ast.FuncDecl None "main" [] (Some [varStmt ["a"] "int"]);
       ast.FuncDecl None "main" [] (Some [])] in
  parseSmtlFile (sampleWorld file z3.True ∅) "a.smtl"
  = Returns ([varStmt ["a"] "int"], None)
  ∧ parseSmtlFile (sampleWorld (ast.mkFile "smtl" [ast.BadDecl]) z3.True ∅) "a.smtl"
    = Returns ([], None).
Proof.
  intros file. split.
  - destruct (parseSmtlFile_first_main (sampleWorld file z3.True ∅) "a.smtl" file
                eq_refl eq_refl) as [H _].
    apply (H [ast.GenDecl token.IMPORT [ast.ImportSpec];
              ast.FuncDecl None "helper" [] (Some [ast.OtherStmt])]
             None [] _ [ast.FuncDecl None "main" [] (Some [])] eq_refl).
    repeat constructor.
  - destruct (parseSmtlFile_first_main
                (sampleWorld (ast.mkFile "smtl" [ast.BadDecl]) z3.True ∅)
                "a.smtl" (ast.mkFile "smtl" [ast.BadDecl]) eq_refl eq_refl)
      as [_ H].
    apply H. repeat constructor.
Defined.

(** ** Exit codes *)




(** ** The model lines *)

Lemma sortStrings_Permutation names : sortStrings names ≡ₚ names.
Proof. apply merge_sort_Permutation. Qed.

Lemma sortStrings_sorted names : StronglySorted String.le (sortStrings names).
Proof. apply (StronglySorted_merge_sort String.le). Qed.

(** The sorted list depends on the names only, not on their order. *)
Lemma sortStrings_unique names names' :
  names ≡ₚ names' → sortStrings names = sortStrings names'.
Proof.
  intros Hperm. apply (StronglySorted_unique String.le).
  - apply sortStrings_sorted.
  - apply sortStrings_sorted.
  - rewrite !sortStrings_Permutation. exact Hperm.
Qed.

Lemma keysOf_elem_of (varTab : VarTab) name :
  name ∈ keysOf varTab ↔ is_Some (varTab !! name).
Proof.
  unfold keysOf. rewrite list_elem_of_fmap. split.
  - intros ([k v] & -> & H%elem_of_map_to_list). eauto.
  - intros [v H]. exists (name, v). split; [reflexivity|].
    apply elem_of_map_to_list, H.
Qed.

(** The keys of the table after a compilation without error are the
    keys it had and the names declared. *)
Lemma declareNames_keys sort Names (varTab varTab' : VarTab) :
  declareNames sort varTab Names = (varTab', None) →
  ∀ n, is_Some (varTab' !! n) ↔ is_Some (varTab !! n) ∨ n ∈ Names.
Proof.
  revert varTab. induction Names as [|name Names IH]; intros varTab.
  - intros [= ->] n. rewrite elem_of_nil. tauto.
  - cbn [declareNames]. destruct (varTab !! name) eqn:Hname; [discriminate|].
    intros H n. rewrite (IH _ H n), elem_of_cons.
    destruct (decide (name = n)) as [->|Hne].
    + rewrite lookup_insert_eq, Hname. split; [auto|]. intros _. left. eauto.
    + rewrite lookup_insert_ne by exact Hne.
      split; [tauto|]. intros [?|[->|?]]; [auto|contradiction|auto].
Qed.

Lemma processStmt_keys s (varTab : VarTab) stmt s' (varTab' : VarTab) :
  processStmt s varTab stmt = Returns ((s', varTab'), None) →
  ∀ n, is_Some (varTab' !! n) ↔ is_Some (varTab !! n) ∨ n ∈ declaredBy stmt.
Proof.
  destruct stmt as [D|X|]; cbn [processStmt]; [| |discriminate].
  - destruct D as [Tok Specs|Recv Name Params Body|]; try discriminate.
    destruct Tok; try discriminate.
    destruct Specs as [|[Names Type_ Values| |] Specs]; try discriminate.
    cbn [processDeclStmt]. unfold processVarSpec.
    destruct (sortOfType Type_) as [sort|err]; [|discriminate].
    destruct (declareNames sort varTab Names) as [vt err] eqn:Hdecl.
    intros [= _ <- ->] n. apply (declareNames_keys _ _ _ _ Hdecl n).
  - destruct (processExprStmt s varTab X) as [s1 err].
    intros [= _ <- _] n. cbn [declaredBy]. rewrite elem_of_nil. tauto.
Qed.

Lemma processStmts_keys s (varTab : VarTab) stmts s' (varTab' : VarTab) :
  processStmts s varTab stmts = Returns ((s', varTab'), None) →
  ∀ n, is_Some (varTab' !! n) ↔ is_Some (varTab !! n) ∨ n ∈ declaredNames stmts.
Proof.
  revert s varTab. induction stmts as [|stmt stmts IH]; intros s varTab.
  - intros [= _ ->] n. change (declaredNames []) with (@nil string).
    rewrite elem_of_nil. tauto.
  - cbn [processStmts].
    destruct (processStmt s varTab stmt) as [[[s1 vt1] [err|]]|] eqn:Hstmt;
      try discriminate.
    intros H n. rewrite (IH _ _ H n), (processStmt_keys _ _ _ _ _ Hstmt n).
    unfold declaredNames. rewrite bind_cons, elem_of_app. tauto.
Qed.

(** Two lists of names without repetition, in increasing order, and with
    the same members are the same list. *)
Lemma sorted_names_unique (names names' : list string) :
  NoDup names → NoDup names' →
  StronglySorted String.le names → StronglySorted String.le names' →
  (∀ n, n ∈ names ↔ n ∈ names') → names = names'.
Proof.
  intros Hnd Hnd' Hs Hs' Hmem.
  apply (StronglySorted_unique String.le); [exact Hs|exact Hs'|].
  apply NoDup_Permutation; assumption.
Qed.

(** C8.  When the compilation succeeds and the solver answers
    [z3.True], what [run] prints after its banner is one line
    [name = value] for each declared variable, each once, in increasing
    order of the names.  The list of names is the same whichever order
    [range] walked the table in, and it is fixed by the set of declared
    names alone, not by the order of the statements; the names [b], [a],
    [c], in any order, come out as [a], [b], [c]. *)
Theorem run_model_lines_sorted
    (w : World) (arg0 path : string) (rest : list string)
    (stmts : list ast.Stmt) (solver : z3.Solver) (varTab : VarTab) :
  range_visits_keys w →
  parseSmtlFile w path = Returns (stmts, None) →
  processStmts z3.NewSolver ∅ stmts = Returns ((solver, varTab), None) →
  Check w solver = z3.True →
  (∃ names,
      run w (arg0 :: path :: rest)
      = Returns
          (mkExit 0
             (("smtrun " +:+ VERSION w)
                :: ((λ name, name +:+ " = "
                             +:+ default "" (Assignments w solver !! name))
                      <$> names))
             [])
      ∧ (∀ name, name ∈ names ↔ name ∈ declaredNames stmts)
      ∧ NoDup names
      ∧ StronglySorted String.le names
      ∧ (∀ order, order ≡ₚ keysOf varTab → sortStrings order = names)
      ∧ (∀ names', NoDup names' → StronglySorted String.le names' →
                   (∀ name, name ∈ names' ↔ name ∈ declaredNames stmts) →
                   names' = names))
  ∧ (∀ order, order ≡ₚ ["b"; "a"; "c"] → sortStrings order = ["a"; "b"; "c"]).
Proof.
  intros Hrange Hparse Hstmts Hcheck. split.
  - exists (sortStrings (rangeKeys w varTab)).
    assert (Hperm : sortStrings (rangeKeys w varTab) ≡ₚ keysOf varTab)
      by (rewrite sortStrings_Permutation; apply Hrange).
    assert (Hmem : ∀ name, name ∈ sortStrings (rangeKeys w varTab)
                           ↔ name ∈ declaredNames stmts).
    { intros name. rewrite Hperm, keysOf_elem_of.
      rewrite (processStmts_keys _ _ _ _ _ Hstmts name), lookup_empty.
      split; [intros [[v [=]]|H]; exact H|auto]. }
    assert (Hnd : NoDup (sortStrings (rangeKeys w varTab)))
      by (rewrite Hperm; apply NoDup_fst_map_to_list).
    split; [|split; [|split; [|split; [|split]]]].
    + cbn [run]. unfold processSmtlFile. rewrite Hparse, Hstmts, Hcheck.
      reflexivity.
    + exact Hmem.
    + exact Hnd.
    + apply sortStrings_sorted.
    + intros order Horder. apply sortStrings_unique.
      rewrite Horder. symmetry. apply Hrange.
    + intros names' Hnd' Hs' Hmem'.
      apply sorted_names_unique; [exact Hnd'|exact Hnd|exact Hs'| |].
      * apply sortStrings_sorted.
      * intros n. rewrite Hmem, Hmem'. reflexivity.
  - intros order Horder. rewrite (sortStrings_unique _ _ Horder). reflexivity.
Qed.

Lemma run_model_lines_sorted_witness :
  let w :=
    sampleWorld (smtlFile [varStmt ["b"] "int"; varStmt ["a"; "c"] "int"])
      z3.True {["a" := "1"; "b" := "2"; "c" := "3"]} in
  range_visits_keys w
  ∧ run w ["smtrun"; "a.smtl"]
    = Returns (mkExit 0 ["smtrun 0.1"; "a = 1"; "b = 2"; "c = 3"] []).
Proof.
  intros w.
  assert (Hrange : range_visits_keys w) by (intros varTab; reflexivity).
  split; [exact Hrange|].
  assert (Hparse : parseSmtlFile w "a.smtl"
                   = Returns ([varStmt ["b"] "int"; varStmt ["a"; "c"] "int"], None))
    by reflexivity.
  assert (Hstmts : processStmts z3.NewSolver ∅
                     [varStmt ["b"] "int"; varStmt ["a"; "c"] "int"]
                   = Returns ((z3.NewSolver,
                               declared z3.IntSort ["b"; "a"; "c"] ∅), None))
    by (vm_compute; reflexivity).
  destruct (run_model_lines_sorted w "smtrun" "a.smtl" [] _ _ _
              Hrange Hparse Hstmts eq_refl)
    as [(names & Hrun & _ & _ & _ & Hnames & _) _].
  rewrite Hrun. rewrite <- (Hnames (keysOf (declared z3.IntSort ["b"; "a"; "c"] ∅)))
    by reflexivity.
  vm_compute. reflexivity.
Defined.

(** ** Method calls *)

(** When no argument fails, [args] has one pointer for each argument. *)
Lemma processArgs_length varTab Args args :
  processArgs (processExpr varTab) Args = (args, None) →
  length args = length Args.
Proof.
  revert args. induction Args as [|arg Args IH]; intros args.
  - intros [= <-]; reflexivity.
  - cbn [processArgs].
    destruct (processExpr varTab arg) as [e [err|]]; [discriminate|].
    destruct (processArgs (processExpr varTab) Args) as [args' err].
    intros [= <- ->]. cbn [length]. rewrite (IH args') by reflexivity. reflexivity.
Qed.

(** An argument that fails after the first is dropped together with its
    error: the receiver's [err] overwrites it and one pointer is left in
    [args]. *)
Lemma processCallExpr_failed_second_argument :
  processExpr ∅
    (ast.CallExpr (ast.SelectorExpr (ast.Ident "true") "implies")
                  [ast.Ident "false"; ast.Ident "y"])
  = (Some (z3.Implies (Some z3.CtxTrue) (Some z3.CtxFalse)), None).
Proof. vm_compute. reflexivity. Qed.

(** C3 does not hold as stated: in [true.implies(false)] the argument
    [false] is compiled before the receiver [true]; the receiver does
    not come before the argument in the order of the calls. *)
Lemma processCallExpr_argument_before_receiver :
  (processExprT ∅ trueImpliesFalse).1
  = [trueImpliesFalse; ast.Ident "false"; ast.Ident "true"]
  ∧ ¬ (∃ l1 l2 l3,
         (processExprT ∅ trueImpliesFalse).1
         = l1 ++ ast.Ident "true" :: l2 ++ ast.Ident "false" :: l3).
Proof.
  split; [reflexivity|].
  intros (l1 & l2 & l3 & H).
  change ([trueImpliesFalse; ast.Ident "false"; ast.Ident "true"]
          = l1 ++ ast.Ident "true" :: l2 ++ ast.Ident "false" :: l3) in H.
  destruct l1 as [|e1 [|e2 [|e3 l1]]]; cbn [app] in H.
  - discriminate H.
  - discriminate H.
  - injection H as _ _ H. destruct l2; discriminate H.
  - injection H as _ _ _ H. destruct l1; discriminate H.
Qed.

(** C3, amended.  In a method call the arguments are compiled first, from
    left to right, and the receiver after them.  When the receiver fails,
    its error is the one returned, whatever the arguments did.  When the
    receiver and the one argument compile, [implies] and [iff] give the
    solver's implication and biconditional over the receiver's term and
    the argument's, and any other name is refused; when the receiver and
    all arguments compile and the arguments are not exactly one,
    [implies] and [iff] are refused with their arity error. *)
Theorem processCallExpr_method
    (varTab : VarTab) (X : ast.Expr) (Sel : string) (Args : list ast.Expr) :
  (processExprT varTab (ast.CallExpr (ast.SelectorExpr X Sel) Args)).1
  = ast.CallExpr (ast.SelectorExpr X Sel) Args
      :: (processArgsT (processExprT varTab) Args).1 ++ (processExprT varTab X).1
  ∧ (∀ A, Args = [A] →
       (processExprT varTab (ast.CallExpr (ast.SelectorExpr X Sel) Args)).1
       = ast.CallExpr (ast.SelectorExpr X Sel) Args
           :: (processExprT varTab A).1 ++ (processExprT varTab X).1)
  ∧ (∀ x err, processExpr varTab X = (x, Some err) →
       processExpr varTab (ast.CallExpr (ast.SelectorExpr X Sel) Args)
       = (None, Some err))
  ∧ (∀ x A a,
       processExpr varTab X = (x, None) → Args = [A] →
       processExpr varTab A = (a, None) →
       (Sel = "implies" →
        processExpr varTab (ast.CallExpr (ast.SelectorExpr X Sel) Args)
        = (Some (z3.Implies x a), None))
       ∧ (Sel = "iff" →
          processExpr varTab (ast.CallExpr (ast.SelectorExpr X Sel) Args)
          = (Some (z3.Iff x a), None)))
  ∧ (∀ x,
       processExpr varTab X = (x, None) → Sel ≠ "implies" → Sel ≠ "iff" →
       processExpr varTab (ast.CallExpr (ast.SelectorExpr X Sel) Args)
       = (None, Some ErrNotSupportedSel))
  ∧ (∀ x args,
       processExpr varTab X = (x, None) →
       processArgs (processExpr varTab) Args = (args, None) →
       length Args ≠ 1 →
       (Sel = "implies" →
        processExpr varTab (ast.CallExpr (ast.SelectorExpr X Sel) Args)
        = (None, Some ErrImpliesArity))
       ∧ (Sel = "iff" →
          processExpr varTab (ast.CallExpr (ast.SelectorExpr X Sel) Args)
          = (None, Some ErrIffArity))).
Proof.
  assert (Hlog :
    (processExprT varTab (ast.CallExpr (ast.SelectorExpr X Sel) Args)).1
    = ast.CallExpr (ast.SelectorExpr X Sel) Args
        :: (processArgsT (processExprT varTab) Args).1
           ++ (processExprT varTab X).1).
  { cbn [processExprT]. unfold processCallExprT.
    destruct (processArgsT (processExprT varTab) Args) as [ls [args err]].
    cbn [processCalleeT].
    destruct (processExprT varTab X) as [lx [e [err'|]]]; reflexivity. }
  split; [exact Hlog|]. split; [|split; [|split; [|split]]].
  - intros A ->. rewrite Hlog. cbn [processArgsT].
    destruct (processExprT varTab A) as [la [e [err|]]]; [reflexivity|].
    cbn [fst]. rewrite app_nil_r. reflexivity.
  - intros x err HX. cbn [processExpr]. unfold processCallExpr.
    destruct (processArgs (processExpr varTab) Args) as [args err'].
    cbn [processCallee]. rewrite HX. reflexivity.
  - intros x A a HX -> HA. cbn [processExpr]. unfold processCallExpr.
    cbn [processArgs]. rewrite HA. cbn [processCallee]. rewrite HX.
    split; intros ->; reflexivity.
  - intros x HX H1 H2. cbn [processExpr]. unfold processCallExpr.
    destruct (processArgs (processExpr varTab) Args) as [args err].
    cbn [processCallee]. rewrite HX, !decide_False by assumption. reflexivity.
  - intros x args HX Hargs Hlen. cbn [processExpr]. unfold processCallExpr.
    rewrite Hargs. cbn [processCallee]. rewrite HX.
    apply processArgs_length in Hargs. rewrite <- Hargs in Hlen.
    split; intros ->.
    + rewrite decide_True by reflexivity.
      destruct args as [|a0 [|a1 args]]; [reflexivity|contradiction|reflexivity].
    + rewrite decide_False by discriminate. rewrite decide_True by reflexivity.
      destruct args as [|a0 [|a1 args]]; [reflexivity|contradiction|reflexivity].
Qed.

Lemma processCallExpr_method_witness :
  processExpr ∅ (ast.Ident "true") = (Some z3.CtxTrue, None)
  ∧ processExpr ∅ (ast.Ident "false") = (Some z3.CtxFalse, None)
  ∧ processExpr ∅ trueImpliesFalse
    = (Some (z3.Implies (Some z3.CtxTrue) (Some z3.CtxFalse)), None)
  ∧ processExpr ∅
      (ast.CallExpr (ast.SelectorExpr (ast.Ident "x") "iff") [ast.Ident "y"])
    = (None, Some (ErrUnknownVariable "x")).
Proof.
  assert (HT : processExpr ∅ (ast.Ident "true") = (Some z3.CtxTrue, None))
    by reflexivity.
  assert (HF : processExpr ∅ (ast.Ident "false") = (Some z3.CtxFalse, None))
    by reflexivity.
  assert (Hx : processExpr ∅ (ast.Ident "x") = (None, Some (ErrUnknownVariable "x")))
    by (vm_compute; reflexivity).
  split; [exact HT|]. split; [exact HF|]. split.
  - destruct (processCallExpr_method ∅ (ast.Ident "true") "implies"
                [ast.Ident "false"]) as (_ & _ & _ & H & _).
    destruct (H _ _ _ HT eq_refl HF) as (Himp & _). apply Himp. reflexivity.
  - destruct (processCallExpr_method ∅ (ast.Ident "x") "iff" [ast.Ident "y"])
      as (_ & _ & H & _).
    apply (H _ _ Hx).
Defined.

(** ** The statement loop as a composition *)

(** X1.  Compiling a list in two parts, the second from the state the first
    left, is compiling the whole; a first part that fails or panics
    decides the outcome alone. *)
Theorem processStmts_app_compose s (varTab : VarTab) stmts1 stmts2 :
  processStmts s varTab (stmts1 ++ stmts2)
  = match processStmts s varTab stmts1 with
    | Returns ((s1, varTab1), None) => processStmts s1 varTab1 stmts2
    | other => other
    end.
Proof.
  revert s varTab. induction stmts1 as [|stmt stmts1 IH]; intros s varTab.
  - reflexivity.
  - cbn [app processStmts].
    destruct (processStmt s varTab stmt) as [[[s' vt'] [err|]]|]; try reflexivity.
    apply IH.
Qed.

(** X2.  An error returned by the loop is the error of one statement, all the
    statements before it having compiled. *)
Theorem processStmts_error_first s (varTab : VarTab) stmts st err :
  processStmts s varTab stmts = Returns (st, Some err) →
  ∃ pre bad post s1 (varTab1 : VarTab),
    stmts = pre ++ bad :: post
    ∧ processStmts s varTab pre = Returns ((s1, varTab1), None)
    ∧ processStmt s1 varTab1 bad = Returns (st, Some err).
Proof.
  revert s varTab. induction stmts as [|stmt stmts IH]; intros s varTab.
  - discriminate.
  - cbn [processStmts].
    destruct (processStmt s varTab stmt) as [[[s' vt'] [e|]]|] eqn:Hstmt;
      [| |discriminate].
    + intros [= <- <-]. exists [], stmt, stmts, s, varTab. auto.
    + intros H. destruct (IH _ _ H) as (pre & bad & post & s1 & vt1 & -> & Hpre & Hbad).
      exists (stmt :: pre), bad, post, s1, vt1. split; [reflexivity|].
      split; [|exact Hbad]. cbn [processStmts]. rewrite Hstmt. exact Hpre.
Qed.

Lemma processStmts_error_first_witness :
  processStmts z3.NewSolver ∅
    [assertStmt (ast.Ident "true"); ast.OtherStmt; assertStmt (ast.Ident "y")]
  = Returns ((z3.mkSolver [Some z3.CtxTrue], ∅), Some ErrNotSupportedStmt)
  ∧ ∃ pre bad post s1 (varTab1 : VarTab),
      [assertStmt (ast.Ident "true"); ast.OtherStmt; assertStmt (ast.Ident "y")]
      = pre ++ bad :: post
      ∧ processStmts z3.NewSolver ∅ pre = Returns ((s1, varTab1), None)
      ∧ processStmt s1 varTab1 bad
        = Returns ((z3.mkSolver [Some z3.CtxTrue], ∅), Some ErrNotSupportedStmt).
Proof.
  assert (H : processStmts z3.NewSolver ∅
                [assertStmt (ast.Ident "true"); ast.OtherStmt;
                 assertStmt (ast.Ident "y")]
              = Returns ((z3.mkSolver [Some z3.CtxTrue], ∅),
                         Some ErrNotSupportedStmt)) by reflexivity.
  split; [exact H|]. exact (processStmts_error_first _ _ _ _ _ H).
Defined.

(** ** What the statements keep of the table and of the solver *)

Lemma declareNames_mono sort Names (varTab : VarTab) name p :
  varTab !! name = Some p →
  (declareNames sort varTab Names).1 !! name = Some p.
Proof.
  revert varTab. induction Names as [|n Names IH]; intros varTab Hp; [exact Hp|].
  cbn [declareNames]. destruct (varTab !! n) eqn:Hn; [exact Hp|].
  apply IH. rewrite lookup_insert_ne by congruence. exact Hp.
Qed.

Lemma declareNames_wf sort Names (varTab : VarTab) :
  wfTable varTab → wfTable (declareNames sort varTab Names).1.
Proof.
  revert varTab. induction Names as [|n Names IH]; intros varTab Hwf; [exact Hwf|].
  cbn [declareNames]. destruct (varTab !! n) eqn:Hn; [exact Hwf|].
  apply IH. intros name p. destruct (decide (n = name)) as [->|Hne].
  - rewrite lookup_insert_eq. intros [= <-]. destruct sort; auto.
  - rewrite lookup_insert_ne by exact Hne. apply Hwf.
Qed.

(** A statement that returns leaves a table that extends the one it
    found and is as well formed. *)
Lemma processStmt_table s (varTab : VarTab) stmt s' (varTab' : VarTab) err :
  processStmt s varTab stmt = Returns ((s', varTab'), err) →
  (∀ name p, varTab !! name = Some p → varTab' !! name = Some p)
  ∧ (wfTable varTab → wfTable varTab').
Proof.
  destruct stmt as [D|X|]; cbn [processStmt].
  - destruct D as [Tok Specs|Recv Name Params Body|];
      try (intros [= _ <- _]; auto).
    destruct Tok; try (intros [= _ <- _]; auto).
    destruct Specs as [|[Names Type_ Values| |] Specs]; try discriminate.
    cbn [processDeclStmt]. unfold processVarSpec.
    destruct (sortOfType Type_) as [sort|e]; [|intros [= _ <- _]; auto].
    destruct (declareNames sort varTab Names) as [vt e] eqn:Hdecl.
    intros [= _ <- _]. split.
    + intros name p Hp.
      pose proof (declareNames_mono sort Names _ _ _ Hp) as H.
      rewrite Hdecl in H. exact H.
    + intros Hwf. pose proof (declareNames_wf sort Names _ Hwf) as H.
      rewrite Hdecl in H. exact H.
  - destruct (processExprStmt s varTab X) as [s1 e]. intros [= _ <- _]. auto.
  - intros [= _ <- _]. auto.
Qed.

Lemma processStmts_table s (varTab : VarTab) stmts s' (varTab' : VarTab) err :
  processStmts s varTab stmts = Returns ((s', varTab'), err) →
  (∀ name p, varTab !! name = Some p → varTab' !! name = Some p)
  ∧ (wfTable varTab → wfTable varTab').
Proof.
  revert s varTab. induction stmts as [|stmt stmts IH]; intros s varTab.
  - intros [= _ <- _]. auto.
  - cbn [processStmts].
    destruct (processStmt s varTab stmt) as [[[s1 vt1] [e|]]|] eqn:Hstmt;
      [| |discriminate].
    + intros [= _ <- _]. apply (processStmt_table _ _ _ _ _ _ Hstmt).
    + intros H. destruct (IH _ _ H) as [IH1 IH2].
      destruct (processStmt_table _ _ _ _ _ _ Hstmt) as [H1 H2]. auto.
Qed.

(** X3.  Whatever the statement list does short of a panic, error included,
    no binding of the table is removed or replaced. *)
Theorem processStmts_table_grows
    s (varTab : VarTab) stmts s' (varTab' : VarTab) err :
  processStmts s varTab stmts = Returns ((s', varTab'), err) →
  ∀ name p, varTab !! name = Some p → varTab' !! name = Some p.
Proof. intros H. apply (processStmts_table _ _ _ _ _ _ H). Qed.

Lemma processStmts_table_grows_witness :
  processStmts z3.NewSolver {["x" := Some (z3.CtxConst "x" z3.BoolSort)]}
    [varStmt ["y"; "x"] "int"]
  = Returns ((z3.NewSolver,
              <["y" := Some (z3.CtxConst "y" z3.IntSort)]>
                {["x" := Some (z3.CtxConst "x" z3.BoolSort)]}),
             Some (ErrAlreadyDeclared "x"))
  ∧ (<["y" := Some (z3.CtxConst "y" z3.IntSort)]>
       ({["x" := Some (z3.CtxConst "x" z3.BoolSort)]} : VarTab)) !! "x"
    = Some (Some (z3.CtxConst "x" z3.BoolSort)).
Proof.
  assert (H : processStmts z3.NewSolver
                {["x" := Some (z3.CtxConst "x" z3.BoolSort)]}
                [varStmt ["y"; "x"] "int"]
              = Returns ((z3.NewSolver,
                          <["y" := Some (z3.CtxConst "y" z3.IntSort)]>
                            {["x" := Some (z3.CtxConst "x" z3.BoolSort)]}),
                         Some (ErrAlreadyDeclared "x")))
    by (vm_compute; reflexivity).
  split; [exact H|].
  apply (processStmts_table_grows _ _ _ _ _ _ H). apply lookup_singleton_eq.
Defined.

(** X4.  Starting from a table whose entries are all constants named by
    their key, of sort Int or Bool, the statement list leaves such a
    table: no entry is ever a nil pointer or another term. *)
Theorem processStmts_table_wf
    s (varTab : VarTab) stmts s' (varTab' : VarTab) err :
  processStmts s varTab stmts = Returns ((s', varTab'), err) →
  wfTable varTab → wfTable varTab'.
Proof. intros H. apply (processStmts_table _ _ _ _ _ _ H). Qed.

Lemma wfTable_empty : wfTable ∅.
Proof. intros name p H. rewrite lookup_empty in H. discriminate. Qed.

Lemma processStmts_table_wf_witness :
  wfTable ∅
  ∧ wfTable (declared z3.BoolSort ["p"; "q"] ∅).
Proof.
  split; [exact wfTable_empty|].
  assert (H : processStmts z3.NewSolver ∅ [varStmt ["p"; "q"] "bool"]
              = Returns ((z3.NewSolver, declared z3.BoolSort ["p"; "q"] ∅), None))
    by (vm_compute; reflexivity).
  exact (processStmts_table_wf _ _ _ _ _ _ H wfTable_empty).
Defined.

Lemma processExprStmt_asserts s (varTab : VarTab) X s' :
  processExprStmt s varTab X = (s', None) →
  ∃ x, z3.asserted s' = z3.asserted s ++ [x].
Proof.
  unfold processExprStmt.
  destruct X as [| | | |Fun Args| | | |]; try discriminate.
  destruct Fun; try discriminate.
  case_decide; [|discriminate].
  destruct Args as [|arg [|arg' Args]]; try discriminate.
  destruct (processExpr varTab arg) as [x [e|]]; [discriminate|].
  intros [= <-]. exists x. reflexivity.
Qed.

(** X5.  The solver only gains terms, at its end: a list that compiles adds
    exactly one term for each of its expression statements, and a list
    that fails has added at most that many. *)
Theorem processStmts_solver_grows
    s (varTab : VarTab) stmts s' (varTab' : VarTab) err :
  processStmts s varTab stmts = Returns ((s', varTab'), err) →
  ∃ terms,
    z3.asserted s' = z3.asserted s ++ terms
    ∧ length terms ≤ length (exprStmts stmts)
    ∧ (err = None → length terms = length (exprStmts stmts)).
Proof.
  revert s varTab. induction stmts as [|stmt stmts IH]; intros s varTab.
  - intros [= <- _ <-]. exists []. rewrite app_nil_r. auto.
  - cbn [processStmts].
    destruct (processStmt s varTab stmt) as [[[s1 vt1] [e|]]|] eqn:Hstmt;
      [| |discriminate].
    + intros [= <- _ <-].
      apply processStmt_error_keeps_solver in Hstmt as ->.
      exists []. rewrite app_nil_r. split; [reflexivity|].
      split; [cbn; lia|discriminate].
    + intros H. destruct (IH _ _ H) as (terms & Hterms & Hle & Heq).
      unfold exprStmts in *. rewrite bind_cons, length_app.
      destruct stmt as [D|X|]; cbn [processStmt] in Hstmt.
      * destruct (processDeclStmt varTab D) as [[vt e]|]; [|discriminate].
        injection Hstmt as <- _ _. exists terms. cbn [length]. auto.
      * destruct (processExprStmt s varTab X) as [s2 e] eqn:HX.
        injection Hstmt as -> _ ->.
        destruct (processExprStmt_asserts _ _ _ _ HX) as [x Hx].
        exists (x :: terms). rewrite Hterms, Hx, <- app_assoc.
        split; [reflexivity|]. cbn [length]. split; [lia|].
        intros He. rewrite (Heq He). reflexivity.
      * discriminate.
Qed.

Lemma processStmts_solver_grows_witness :
  processStmts z3.NewSolver ∅
    [assertStmt (ast.Ident "true"); varStmt ["x"] "bool"; assertStmt (ast.Ident "x")]
  = Returns
      ((z3.mkSolver [Some z3.CtxTrue; Some (z3.CtxConst "x" z3.BoolSort)],
        declared z3.BoolSort ["x"] ∅), None)
  ∧ ∃ terms,
      [Some z3.CtxTrue; Some (z3.CtxConst "x" z3.BoolSort)] = [] ++ terms
      ∧ length terms ≤ 2
      ∧ ((None : option error) = None → length terms = 2).
Proof.
  assert (H : processStmts z3.NewSolver ∅
                [assertStmt (ast.Ident "true"); varStmt ["x"] "bool";
                 assertStmt (ast.Ident "x")]
              = Returns
                  ((z3.mkSolver [Some z3.CtxTrue;
                                 Some (z3.CtxConst "x" z3.BoolSort)],
                    declared z3.BoolSort ["x"] ∅), None))
    by (vm_compute; reflexivity).
  split; [exact H|]. exact (processStmts_solver_grows _ _ _ _ _ _ H).
Defined.

(** ** Identifiers *)

(** X6.  After a compilation from the empty table, a name other than [true]
    and [false] compiles exactly when a statement declared it, and then
    to the constant of that name; any other name is an unknown
    variable. *)
Theorem processIdent_declared
    stmts s (varTab : VarTab) (name : string) :
  processStmts z3.NewSolver ∅ stmts = Returns ((s, varTab), None) →
  name ≠ "true" → name ≠ "false" →
  (name ∈ declaredNames stmts →
   ∃ sort, processExpr varTab (ast.Ident name)
           = (Some (z3.CtxConst name sort), None))
  ∧ (name ∉ declaredNames stmts →
     processExpr varTab (ast.Ident name)
     = (None, Some (ErrUnknownVariable name))).
Proof.
  intros H Ht Hf.
  pose proof (processStmts_keys _ _ _ _ _ H name) as Hkeys.
  destruct (processStmts_table _ _ _ _ _ _ H) as [_ Hwf].
  specialize (Hwf wfTable_empty).
  cbn [processExpr]. unfold processIdent.
  rewrite !decide_False by assumption. split.
  - intros Hin. destruct (proj2 Hkeys (or_intror Hin)) as [p Hp].
    rewrite Hp. destruct (Hwf _ _ Hp) as [-> | ->]; eauto.
  - intros Hnin. destruct (varTab !! name) as [p|] eqn:Hp; [|reflexivity].
    destruct (proj1 Hkeys (mk_is_Some _ _ eq_refl)) as [[v Hv]|Hin].
    + rewrite lookup_empty in Hv. discriminate.
    + contradiction.
Qed.

Lemma processIdent_declared_witness :
  processStmts z3.NewSolver ∅ [varStmt ["x"] "int"]
  = Returns ((z3.NewSolver, declared z3.IntSort ["x"] ∅), None)
  ∧ (∃ sort, processExpr (declared z3.IntSort ["x"] ∅) (ast.Ident "x")
             = (Some (z3.CtxConst "x" sort), None))
  ∧ processExpr (declared z3.IntSort ["x"] ∅) (ast.Ident "y")
    = (None, Some (ErrUnknownVariable "y")).
Proof.
  assert (H : processStmts z3.NewSolver ∅ [varStmt ["x"] "int"]
              = Returns ((z3.NewSolver, declared z3.IntSort ["x"] ∅), None))
    by (vm_compute; reflexivity).
  split; [exact H|]. split.
  - apply (processIdent_declared _ _ _ "x" H); [discriminate|discriminate|].
    apply list_elem_of_here.
  - apply (processIdent_declared _ _ _ "y" H); [discriminate|discriminate|].
    intros Hin. change ("y" ∈ ["x"]) in Hin.
    apply elem_of_cons in Hin as [Hin|Hin]; [discriminate|].
    apply elem_of_nil in Hin. exact Hin.
Defined.

(** X7.  The names [true] and [false] can be declared like any other, but a
    reference to them is always the boolean constant, never the
    variable: here the declaration is accepted and the assertion that
    follows hands the constant to the solver. *)
Theorem processIdent_reserved_shadow s (varTab : VarTab) (name : string) :
  name = "true" ∨ name = "false" →
  varTab !! name = None →
  ∃ c, (c = z3.CtxTrue ∨ c = z3.CtxFalse)
       ∧ (∀ varTab' : VarTab, processExpr varTab' (ast.Ident name) = (Some c, None))
       ∧ processStmts s varTab [varStmt [name] "int"; assertStmt (ast.Ident name)]
         = Returns ((z3.Assert s (Some c),
                     <[name := Some (z3.CtxConst name z3.IntSort)]> varTab), None).
Proof.
  intros [-> | ->] Hfresh.
  - exists z3.CtxTrue. split; [auto|]. split; [reflexivity|].
    cbn [processStmts processStmt varStmt processDeclStmt].
    change (processVarSpec varTab ["true"] (Some (ast.Ident "int")))
      with (declareNames z3.IntSort varTab ["true"]).
    cbn [declareNames]. rewrite Hfresh. reflexivity.
  - exists z3.CtxFalse. split; [auto|]. split; [reflexivity|].
    cbn [processStmts processStmt varStmt processDeclStmt].
    change (processVarSpec varTab ["false"] (Some (ast.Ident "int")))
      with (declareNames z3.IntSort varTab ["false"]).
    cbn [declareNames]. rewrite Hfresh. reflexivity.
Qed.

Lemma processIdent_reserved_shadow_witness :
  ∃ c, (c = z3.CtxTrue ∨ c = z3.CtxFalse)
       ∧ (∀ varTab' : VarTab, processExpr varTab' (ast.Ident "false") = (Some c, None))
       ∧ processStmts z3.NewSolver ∅
           [varStmt ["false"] "int"; assertStmt (ast.Ident "false")]
         = Returns ((z3.Assert z3.NewSolver (Some c),
                     <["false" := Some (z3.CtxConst "false" z3.IntSort)]> ∅), None).
Proof.
  apply (processIdent_reserved_shadow z3.NewSolver ∅ "false").
  - right. reflexivity.
  - apply lookup_empty.
Defined.

(** ** Operators *)

Lemma processBOP_supported Op x y :
  Op ∈ binaryOperators ↔ ∃ r, processBOP Op x y = (Some r, None).
Proof.
  split.
  - intros H. destruct Op; try (eexists; reflexivity); exfalso;
      repeat (apply elem_of_cons in H as [H|H]; [discriminate H|]);
      apply elem_of_nil in H; exact H.
  - intros [r H]. destruct Op; try discriminate H;
      unfold binaryOperators;
      repeat first [apply list_elem_of_here | apply list_elem_of_further].
Qed.

Lemma processBOP_unsupported Op x y :
  Op ∉ binaryOperators → processBOP Op x y = (None, Some ErrNotSupportedBop).
Proof.
  intros H. destruct Op; try reflexivity; exfalso; apply H;
    unfold binaryOperators;
    repeat first [apply list_elem_of_here | apply list_elem_of_further].
Qed.

(** X8.  With both operands compiling, a binary expression compiles exactly
    for the eleven operators [+ - * && || == < > != <= >=]; any other
    operator ([/], [%], the bit operators, ...) is "not supported
    bop". *)
Theorem processBinaryExpr_operators (varTab : VarTab) X Op Y x y :
  processExpr varTab X = (x, None) →
  processExpr varTab Y = (y, None) →
  (Op ∈ binaryOperators ↔
   ∃ r, processExpr varTab (ast.BinaryExpr X Op Y) = (Some r, None))
  ∧ (Op ∉ binaryOperators →
     processExpr varTab (ast.BinaryExpr X Op Y) = (None, Some ErrNotSupportedBop)).
Proof.
  intros HX HY. cbn [processExpr]. unfold processBinaryExpr. rewrite HX, HY.
  split; [apply processBOP_supported|apply processBOP_unsupported].
Qed.

Lemma processBinaryExpr_operators_witness :
  processExpr ∅ (ast.BasicLit token.INT "6") = (Some (z3.CtxInt 6 z3.IntSort), None)
  ∧ processExpr ∅ (ast.BasicLit token.INT "3") = (Some (z3.CtxInt 3 z3.IntSort), None)
  ∧ processExpr ∅ (ast.BinaryExpr (ast.BasicLit token.INT "6") token.QUO
                                  (ast.BasicLit token.INT "3"))
    = (None, Some ErrNotSupportedBop).
Proof.
  assert (H6 : processExpr ∅ (ast.BasicLit token.INT "6")
               = (Some (z3.CtxInt 6 z3.IntSort), None)) by reflexivity.
  assert (H3 : processExpr ∅ (ast.BasicLit token.INT "3")
               = (Some (z3.CtxInt 3 z3.IntSort), None)) by reflexivity.
  split; [exact H6|]. split; [exact H3|].
  apply (processBinaryExpr_operators ∅ _ token.QUO _ _ _ H6 H3).
  intros H. repeat (apply elem_of_cons in H as [H|H]; [discriminate H|]).
  apply elem_of_nil in H. exact H.
Defined.

(** X9.  A unary expression with an operator other than [!] never compiles:
    it fails with its operand's error when the operand fails, and with
    "not supported bop" otherwise.  A negative literal, which the parser
    reads as a unary minus, is such an expression. *)
Theorem processUnaryExpr_only_not (varTab : VarTab) Op X :
  Op ≠ token.NOT →
  ∃ err,
    processExpr varTab (ast.UnaryExpr Op X) = (None, Some err)
    ∧ ((processExpr varTab X).2 = None → err = ErrNotSupportedBop)
    ∧ (∀ e, (processExpr varTab X).2 = Some e → err = e).
Proof.
  intros HOp. cbn [processExpr]. unfold processUnaryExpr.
  destruct (processExpr varTab X) as [x [e|]]; cbn [snd].
  - exists e. split; [reflexivity|]. split; [discriminate|]. intros e' [= ->].
    reflexivity.
  - exists ErrNotSupportedBop. split; [|split; [reflexivity|discriminate]].
    destruct Op; try reflexivity. contradiction.
Qed.

Lemma processUnaryExpr_only_not_witness :
  token.SUB ≠ token.NOT
  ∧ processExpr ∅ (ast.UnaryExpr token.SUB (ast.BasicLit token.INT "1"))
    = (None, Some ErrNotSupportedBop).
Proof.
  assert (H : token.SUB ≠ token.NOT) by discriminate.
  split; [exact H|].
  destruct (processUnaryExpr_only_not ∅ token.SUB (ast.BasicLit token.INT "1") H)
    as (err & Herr & Hok & _).
  rewrite Herr, (Hok eq_refl). reflexivity.
Defined.

(** X10.  [X != Y] compiles to what [!(X == Y)] compiles to, term and error
    alike. *)
Theorem processBinaryExpr_NEQ (varTab : VarTab) X Y :
  processExpr varTab (ast.BinaryExpr X token.NEQ Y)
  = processExpr varTab
      (ast.UnaryExpr token.NOT (ast.ParenExpr (ast.BinaryExpr X token.EQL Y))).
Proof.
  cbn [processExpr]. unfold processUnaryExpr. cbn [processExpr].
  unfold processBinaryExpr.
  destruct (processExpr varTab X) as [x [e|]]; [reflexivity|].
  destruct (processExpr varTab Y) as [y [e|]]; reflexivity.
Qed.

(** X11.  The operands of a binary expression are compiled from left to right
    and the first failure ends the compilation: when the left operand
    fails its error is returned and the right operand is not visited;
    when only the right operand fails its error is returned, whatever
    the operator. *)
Theorem processBinaryExpr_first_failure (varTab : VarTab) X Op Y :
  (∀ x e, processExpr varTab X = (x, Some e) →
     processExpr varTab (ast.BinaryExpr X Op Y) = (None, Some e)
     ∧ (processExprT varTab (ast.BinaryExpr X Op Y)).1
       = ast.BinaryExpr X Op Y :: (processExprT varTab X).1)
  ∧ (∀ x, processExpr varTab X = (x, None) →
     (processExprT varTab (ast.BinaryExpr X Op Y)).1
     = ast.BinaryExpr X Op Y
         :: (processExprT varTab X).1 ++ (processExprT varTab Y).1
     ∧ ∀ y e, processExpr varTab Y = (y, Some e) →
              processExpr varTab (ast.BinaryExpr X Op Y) = (None, Some e)).
Proof.
  split.
  - intros x e HX. split.
    + cbn [processExpr]. unfold processBinaryExpr. rewrite HX. reflexivity.
    + rewrite <- processExprT_result in HX.
      cbn [processExprT]. unfold processBinaryExprT.
      destruct (processExprT varTab X) as [lx [x' [e'|]]]; [reflexivity|].
      discriminate HX.
  - intros x HX. split.
    + rewrite <- processExprT_result in HX.
      cbn [processExprT]. unfold processBinaryExprT.
      destruct (processExprT varTab X) as [lx [x' [e'|]]]; [discriminate HX|].
      destruct (processExprT varTab Y) as [ly [y' [e'|]]]; reflexivity.
    + intros y e HY. cbn [processExpr]. unfold processBinaryExpr.
      rewrite HX, HY. reflexivity.
Qed.

Lemma processBinaryExpr_first_failure_witness :
  processExpr ∅ (ast.Ident "x") = (None, Some (ErrUnknownVariable "x"))
  ∧ processExpr ∅ (ast.BinaryExpr (ast.Ident "x") token.QUO (ast.Ident "y"))
    = (None, Some (ErrUnknownVariable "x"))
  ∧ (processExprT ∅ (ast.BinaryExpr (ast.Ident "x") token.QUO (ast.Ident "y"))).1
    = [ast.BinaryExpr (ast.Ident "x") token.QUO (ast.Ident "y"); ast.Ident "x"].
Proof.
  assert (Hx : processExpr ∅ (ast.Ident "x") = (None, Some (ErrUnknownVariable "x")))
    by (vm_compute; reflexivity).
  split; [exact Hx|].
  destruct (processBinaryExpr_first_failure ∅ (ast.Ident "x") token.QUO
              (ast.Ident "y")) as [H _].
  destruct (H _ _ Hx) as [H1 H2]. split; [exact H1|]. rewrite H2. reflexivity.
Defined.

(** ** Arguments *)

Lemma processArgs_all (varTab : VarTab) Args :
  Forall (λ arg, (processExpr varTab arg).2 = None) Args →
  processArgs (processExpr varTab) Args = (compiled varTab Args, None).
Proof.
  induction 1 as [|arg Args Harg _ IH]; [reflexivity|].
  cbn [processArgs]. destruct (processExpr varTab arg) as [e err] eqn:He.
  cbn [snd] in Harg. subst err. rewrite IH.
  unfold compiled. cbn [fmap list_fmap]. rewrite He. reflexivity.
Qed.

Lemma processArgs_stops (varTab : VarTab) pre bad post e :
  Forall (λ arg, (processExpr varTab arg).2 = None) pre →
  (processExpr varTab bad).2 = Some e →
  processArgs (processExpr varTab) (pre ++ bad :: post)
  = (compiled varTab pre, Some e).
Proof.
  intros Hpre Hbad. induction Hpre as [|arg pre Harg _ IH].
  - cbn [app processArgs]. destruct (processExpr varTab bad) as [b err].
    cbn [snd] in Hbad. subst err. reflexivity.
  - cbn [app processArgs]. destruct (processExpr varTab arg) as [a err] eqn:Ha.
    cbn [snd] in Harg. subst err. rewrite IH.
    unfold compiled. cbn [fmap list_fmap]. rewrite Ha. reflexivity.
Qed.

Lemma processArgsT_stops (varTab : VarTab) pre bad post e :
  Forall (λ arg, (processExpr varTab arg).2 = None) pre →
  (processExpr varTab bad).2 = Some e →
  (processArgsT (processExprT varTab) (pre ++ bad :: post)).1
  = visited varTab pre ++ (processExprT varTab bad).1.
Proof.
  intros Hpre Hbad. induction Hpre as [|arg pre Harg _ IH].
  - cbn [app processArgsT]. rewrite <- processExprT_result in Hbad.
    destruct (processExprT varTab bad) as [lb [b [err|]]]; [reflexivity|].
    discriminate Hbad.
  - cbn [app processArgsT]. rewrite <- processExprT_result in Harg.
    unfold visited. rewrite bind_cons. fold (visited varTab pre).
    destruct (processExprT varTab arg) as [la [a [err|]]]; [discriminate Harg|].
    destruct (processArgsT (processExprT varTab) (pre ++ bad :: post))
      as [ls [args err]].
    cbn [fst] in *. rewrite IH, app_assoc. reflexivity.
Qed.

(** X12.  The arguments of a call are compiled from left to right up to the
    first that fails: the call sees the pointers of the arguments before
    it and its error, and no argument after it is visited. *)
Theorem processArgs_first_failure (varTab : VarTab) pre bad post e :
  Forall (λ arg, (processExpr varTab arg).2 = None) pre →
  (processExpr varTab bad).2 = Some e →
  processArgs (processExpr varTab) (pre ++ bad :: post)
  = (compiled varTab pre, Some e)
  ∧ (processArgsT (processExprT varTab) (pre ++ bad :: post)).1
    = visited varTab pre ++ (processExprT varTab bad).1.
Proof.
  intros Hpre Hbad. split.
  - apply processArgs_stops; assumption.
  - eapply processArgsT_stops; eassumption.
Qed.

Lemma processArgs_first_failure_witness :
  Forall (λ arg, (processExpr ∅ arg).2 = None) [ast.Ident "true"]
  ∧ (processExpr ∅ (ast.Ident "y")).2 = Some (ErrUnknownVariable "y")
  ∧ processArgs (processExpr ∅)
      ([ast.Ident "true"] ++ ast.Ident "y" :: [ast.Ident "z"])
    = ([Some z3.CtxTrue], Some (ErrUnknownVariable "y"))
  ∧ (processArgsT (processExprT ∅)
       ([ast.Ident "true"] ++ ast.Ident "y" :: [ast.Ident "z"])).1
    = [ast.Ident "true"; ast.Ident "y"].
Proof.
  assert (Hpre : Forall (λ arg, (processExpr ∅ arg).2 = None) [ast.Ident "true"])
    by (repeat constructor).
  assert (Hbad : (processExpr ∅ (ast.Ident "y")).2 = Some (ErrUnknownVariable "y"))
    by (vm_compute; reflexivity).
  split; [exact Hpre|]. split; [exact Hbad|].
  destruct (processArgs_first_failure ∅ _ _ [ast.Ident "z"] _ Hpre Hbad)
    as [H1 H2].
  split; [rewrite H1|rewrite H2]; reflexivity.
Defined.

(** ** distinct *)

(** X13.  [distinct] over two or more arguments that all compile is the
    solver's distinctness term of the first argument's pointer over the
    pointers of the others, in the order written. *)
Theorem processCallExpr_distinct (varTab : VarTab) Args :
  Forall (λ arg, (processExpr varTab arg).2 = None) Args →
  2 ≤ length Args →
  ∃ a0 rest,
    compiled varTab Args = a0 :: rest
    ∧ processExpr varTab (ast.CallExpr (ast.Ident "distinct") Args)
      = (Some (z3.Distinct a0 rest), None).
Proof.
  intros Hall Hlen. cbn [processExpr]. unfold processCallExpr.
  rewrite (processArgs_all _ _ Hall).
  destruct Args as [|A0 [|A1 Args]]; cbn [length] in Hlen; [lia|lia|].
  eexists _, _. split; reflexivity.
Qed.

Lemma processCallExpr_distinct_witness :
  Forall (λ arg, (processExpr ∅ arg).2 = None)
    [ast.Ident "true"; ast.Ident "false"; ast.BasicLit token.INT "1"]
  ∧ 2 ≤ length [ast.Ident "true"; ast.Ident "false"; ast.BasicLit token.INT "1"]
  ∧ processExpr ∅
      (ast.CallExpr (ast.Ident "distinct")
         [ast.Ident "true"; ast.Ident "false"; ast.BasicLit token.INT "1"])
    = (Some (z3.Distinct (Some z3.CtxTrue)
               [Some z3.CtxFalse; Some (z3.CtxInt 1 z3.IntSort)]), None).
Proof.
  assert (Hall : Forall (λ arg, (processExpr ∅ arg).2 = None)
                   [ast.Ident "true"; ast.Ident "false";
                    ast.BasicLit token.INT "1"]) by (repeat constructor).
  assert (Hlen : 2 ≤ length [ast.Ident "true"; ast.Ident "false";
                             ast.BasicLit token.INT "1"]) by (cbn; lia).
  split; [exact Hall|]. split; [exact Hlen|].
  destruct (processCallExpr_distinct ∅ _ Hall Hlen) as (a0 & rest & Hc & H).
  rewrite H. injection Hc as <- <-. reflexivity.
Defined.

(** X14.  A [distinct] call with an argument that fails always fails.  When at
    least two arguments compiled before it, the error is the argument's
    (and the term over the arguments before it is returned as well);
    otherwise the error is the arity error of [distinct], the argument's
    own error being lost. *)
Theorem processCallExpr_distinct_failure (varTab : VarTab) pre bad post e :
  Forall (λ arg, (processExpr varTab arg).2 = None) pre →
  (processExpr varTab bad).2 = Some e →
  (length pre < 2 →
   processExpr varTab (ast.CallExpr (ast.Ident "distinct") (pre ++ bad :: post))
   = (None, Some ErrDistinctArity))
  ∧ (2 ≤ length pre →
     ∃ a0 rest,
       compiled varTab pre = a0 :: rest
       ∧ processExpr varTab
           (ast.CallExpr (ast.Ident "distinct") (pre ++ bad :: post))
         = (Some (z3.Distinct a0 rest), Some e)).
Proof.
  intros Hpre Hbad. cbn [processExpr]. unfold processCallExpr.
  rewrite (processArgs_stops _ _ _ _ _ Hpre Hbad).
  destruct pre as [|A0 [|A1 pre]]; cbn [length]; split; intros Hlen;
    try lia; try reflexivity.
  eexists _, _. split; reflexivity.
Qed.

Lemma processCallExpr_distinct_failure_witness :
  Forall (λ arg, (processExpr ∅ arg).2 = None) [ast.Ident "true"]
  ∧ (processExpr ∅ (ast.Ident "y")).2 = Some (ErrUnknownVariable "y")
  ∧ processExpr ∅
      (ast.CallExpr (ast.Ident "distinct") ([ast.Ident "true"] ++ ast.Ident "y" :: []))
    = (None, Some ErrDistinctArity).
Proof.
  assert (Hpre : Forall (λ arg, (processExpr ∅ arg).2 = None) [ast.Ident "true"])
    by (repeat constructor).
  assert (Hbad : (processExpr ∅ (ast.Ident "y")).2 = Some (ErrUnknownVariable "y"))
    by (vm_compute; reflexivity).
  split; [exact Hpre|]. split; [exact Hbad|].
  destruct (processCallExpr_distinct_failure ∅ _ _ [] _ Hpre Hbad) as [H _].
  apply H. cbn. lia.
Defined.

(** ** Literals and the int range *)

Lemma Atoi_range s v : strconv.Atoi s = (v, None) → (minInt ≤ v ≤ maxInt)%Z.
Proof.
  unfold strconv.Atoi, minInt, maxInt.
  repeat case_match; try discriminate; intros [= <-];
    repeat match goal with
           | H : bool_decide _ = false |- _ => apply bool_decide_eq_false in H
           end; lia.
Qed.

(** X15.  A literal that yields a term is of kind [INT], and the term is the
    Int constant of the value [Atoi] read, which lies in the range of
    Go's [int]. *)
Theorem processBasicLit_term_in_range (varTab : VarTab) Kind Value r :
  (processExpr varTab (ast.BasicLit Kind Value)).1 = Some r →
  Kind = token.INT
  ∧ ∃ v, r = z3.CtxInt v z3.IntSort
         ∧ strconv.Atoi Value = (v, None)
         ∧ (minInt ≤ v ≤ maxInt)%Z.
Proof.
  cbn [processExpr]. unfold processBasicLit.
  case_decide; [|discriminate]. intros Hr. split; [assumption|].
  destruct (strconv.Atoi Value) as [v [e|]] eqn:HA; [discriminate|].
  injection Hr as <-. exists v. split; [reflexivity|]. split; [reflexivity|].
  eapply Atoi_range, HA.
Qed.

Lemma processBasicLit_term_in_range_witness :
  (processExpr ∅ (ast.BasicLit token.INT "9223372036854775807")).1
  = Some (z3.CtxInt 9223372036854775807 z3.IntSort)
  ∧ token.INT = token.INT
  ∧ ∃ v, z3.CtxInt 9223372036854775807 z3.IntSort = z3.CtxInt v z3.IntSort
         ∧ strconv.Atoi "9223372036854775807" = (v, None)
         ∧ (minInt ≤ v ≤ maxInt)%Z.
Proof.
  assert (H : (processExpr ∅ (ast.BasicLit token.INT "9223372036854775807")).1
              = Some (z3.CtxInt 9223372036854775807 z3.IntSort)) by reflexivity.
  split; [exact H|]. exact (processBasicLit_term_in_range ∅ _ _ _ H).
Defined.

Lemma digits_nonneg s acc n : (0 ≤ acc)%Z → strconv.digits acc s = Some n → (0 ≤ n)%Z.
Proof.
  revert acc. induction s as [|c s IH]; intros acc Hacc; cbn [strconv.digits].
  - intros [= <-]. exact Hacc.
  - unfold strconv.digit. case_bool_decide; [|discriminate].
    apply IH. lia.
Qed.

(** X16.  A literal written with decimal digits only, whose value fits Go's
    [int], compiles to the Int constant of that value; leading zeros do
    not make it octal. *)
Theorem processBasicLit_decimal (varTab : VarTab) Value n :
  Value ≠ EmptyString →
  strconv.digits 0 Value = Some n →
  (n ≤ maxInt)%Z →
  processExpr varTab (ast.BasicLit token.INT Value)
  = (Some (z3.CtxInt n z3.IntSort), None).
Proof.
  intros Hne Hdigits Hmax.
  pose proof (digits_nonneg _ _ _ (Z.le_refl 0) Hdigits) as Hpos.
  apply processBasicLit_INT_parsed.
  destruct Value as [|c s]; [contradiction|].
  assert (Hsign : c ≠ "-"%char ∧ c ≠ "+"%char).
  { cbn [strconv.digits] in Hdigits.
    split; intros ->; discriminate Hdigits. }
  destruct Hsign as [Hminus Hplus].
  assert (Hbody : strconv.Atoi (String c s)
                  = match strconv.digits 0 (String c s) with
                    | None => (0%Z, Some strconv.ErrSyntax)
                    | Some n =>
                        if bool_decide (n < - 2 ^ (strconv.intSize - 1))%Z
                        then ((- 2 ^ (strconv.intSize - 1))%Z, Some strconv.ErrRange)
                        else if bool_decide (2 ^ (strconv.intSize - 1) - 1 < n)%Z
                             then ((2 ^ (strconv.intSize - 1) - 1)%Z,
                                   Some strconv.ErrRange)
                             else (n, None)
                    end).
  { unfold strconv.Atoi.
    destruct c as [[] [] [] [] [] [] [] []]; try reflexivity; contradiction. }
  rewrite Hbody, Hdigits. unfold maxInt, strconv.intSize in *.
  rewrite !bool_decide_eq_false_2 by lia. reflexivity.
Qed.

Lemma processBasicLit_decimal_witness :
  "017" ≠ EmptyString
  ∧ strconv.digits 0 "017" = Some 17%Z
  ∧ (17 ≤ maxInt)%Z
  ∧ processExpr ∅ (ast.BasicLit token.INT "017")
    = (Some (z3.CtxInt 17 z3.IntSort), None).
Proof.
  assert (H1 : "017" ≠ EmptyString) by discriminate.
  assert (H2 : strconv.digits 0 "017" = Some 17%Z) by reflexivity.
  assert (H3 : (17 ≤ maxInt)%Z) by (vm_compute; discriminate).
  split; [exact H1|]. split; [exact H2|]. split; [exact H3|].
  exact (processBasicLit_decimal ∅ _ _ H1 H2 H3).
Defined.

(** ** The errors of expressions *)

Lemma processArgs_error (P : error → Prop) (varTab : VarTab) Args :
  Forall (λ arg, ∀ e, (processExpr varTab arg).2 = Some e → P e) Args →
  ∀ e, (processArgs (processExpr varTab) Args).2 = Some e → P e.
Proof.
  induction 1 as [|arg Args Harg _ IH]; [discriminate|].
  cbn [processArgs].
  destruct (processExpr varTab arg) as [a [err|]]; [exact Harg|].
  destruct (processArgs (processExpr varTab) Args) as [args err]. exact IH.
Qed.

(** X17.  An error of the expression compiler is one of the nine it builds
    itself (never a statement or parser error, never the arity error of
    the empty argument list), and when it reports an unknown variable,
    that name is not reserved and the table holds no term for it. *)
Theorem processExpr_error_sound (varTab : VarTab) expr e :
  (processExpr varTab expr).2 = Some e →
  isExprError e = true
  ∧ ∀ name, e = ErrUnknownVariable name → unresolved varTab name.
Proof.
  revert e.
  induction expr as [Name|Kind Value|X Op Y IHX IHY|Op X IHX|Fun Args IHFun IHArgs
                    |X IHX|X Sel|Len Elt|] using Expr_call_ind;
    intros e; try (intros [= <-]; split; [reflexivity|discriminate]).
  - cbn [processExpr]. unfold processIdent.
    repeat case_decide; try discriminate.
    destruct (varTab !! Name) as [[r|]|] eqn:HN; try discriminate;
      intros [= <-]; (split; [reflexivity|]); intros name [= <-];
      unfold unresolved; auto.
  - cbn [processExpr]. rewrite processBasicLit_err_nil. discriminate.
  - cbn [processExpr]. unfold processBinaryExpr.
    destruct (processExpr varTab X) as [x [err|]]; [apply IHX|].
    destruct (processExpr varTab Y) as [y [err|]]; [apply IHY|].
    destruct Op; try discriminate; intros [= <-]; (split; [reflexivity|discriminate]).
  - cbn [processExpr]. unfold processUnaryExpr.
    destruct (processExpr varTab X) as [x [err|]]; [apply IHX|].
    destruct Op; try discriminate; intros [= <-]; (split; [reflexivity|discriminate]).
  - cbn [processExpr]. unfold processCallExpr.
    pose proof (processArgs_error _ _ _ IHArgs) as Hargs.
    destruct (processArgs (processExpr varTab) Args) as [args err].
    cbn [snd] in Hargs. unfold processCallee.
    destruct Fun; try (intros [= <-]; split; [reflexivity|discriminate]).
    + case_decide; [|intros [= <-]; split; [reflexivity|discriminate]].
      destruct args as [|a0 [|a1 args]];
        try (intros [= <-]; split; [reflexivity|discriminate]).
      rewrite decide_False by discriminate. apply Hargs.
    + specialize (IHFun _ _ eq_refl).
      destruct (processExpr varTab Fun) as [r [err'|]]; [apply IHFun|].
      repeat case_decide; destruct args as [|a0 [|a1 args]];
        try discriminate; intros [= <-]; split; reflexivity || discriminate.
  - apply IHX.
Qed.


Lemma processExpr_error_sound_witness :
  (processExpr ∅
     (ast.BinaryExpr (ast.Ident "true") token.LAND
        (ast.ParenExpr (ast.UnaryExpr token.NOT (ast.Ident "y"))))).2
  = Some (ErrUnknownVariable "y")
  ∧ unresolved ∅ "y".
Proof.
  assert (H : (processExpr ∅
                 (ast.BinaryExpr (ast.Ident "true") token.LAND
                    (ast.ParenExpr (ast.UnaryExpr token.NOT (ast.Ident "y"))))).2
              = Some (ErrUnknownVariable "y")) by (vm_compute; reflexivity).
  split; [exact H|].
  destruct (processExpr_error_sound _ _ _ H) as [_ Hy]. apply Hy. reflexivity.
Defined.

(** ** The driver on files that do not reach the solver's verdict *)

(** X18.  A file that does not parse, or whose package is not [smtl], ends
    the run with code 2 after the banner, the parser's message or
    "name is not supported package" on the error stream; the
    declarations of the file are not looked at. *)
Theorem run_rejected_file (w : World) arg0 path rest :
  (∀ err, ParseFile w path = inr err →
     run w (arg0 :: path :: rest)
     = Returns (mkExit 2 ["smtrun " +:+ VERSION w] [message err]))
  ∧ (∀ file, ParseFile w path = inl file → ast.Name file ≠ "smtl" →
       run w (arg0 :: path :: rest)
       = Returns (mkExit 2 ["smtrun " +:+ VERSION w]
                    [ast.Name file +:+ " is not supported package"])).
Proof.
  split.
  - intros err H. eapply (run_on_error _ _ _ _ None ∅).
    unfold processSmtlFile, parseSmtlFile. rewrite H. reflexivity.
  - intros file H Hname.
    apply (run_on_error _ _ _ _ None ∅ (ErrNotSupportedPackage (ast.Name file))).
    unfold processSmtlFile, parseSmtlFile. rewrite H.
    rewrite decide_False by exact Hname. reflexivity.
Qed.

Lemma run_rejected_file_witness :
  let file := ast.mkFile "main" [ast.FuncDecl None "main" [] None] in
  ParseFile (sampleWorld file z3.True ∅) "a.go" = inl file
  ∧ ast.Name file ≠ "smtl"
  ∧ run (sampleWorld file z3.True ∅) ["smtrun"; "a.go"]
    = Returns (mkExit 2 ["smtrun 0.1"] ["main is not supported package"]).
Proof.
  intros file.
  assert (H1 : ParseFile (sampleWorld file z3.True ∅) "a.go" = inl file)
    by reflexivity.
  assert (H2 : ast.Name file ≠ "smtl") by discriminate.
  split; [exact H1|]. split; [exact H2|].
  destruct (run_rejected_file (sampleWorld file z3.True ∅) "smtrun" "a.go" [])
    as [_ H].
  exact (H file H1 H2).
Defined.

(** X19.  A file of package [smtl] without a function named [main] compiles
    to the solver without assertions and the empty table, so that on a
    verdict of [z3.True] the run prints its banner and nothing else and
    leaves with code 0. *)
Theorem run_without_main (w : World) arg0 path rest file :
  range_visits_keys w →
  ParseFile w path = inl file →
  ast.Name file = "smtl" →
  Forall (λ D, isMain D = false) (ast.Decls file) →
  processSmtlFile w ∅ path = Returns (Some z3.NewSolver, ∅, None)
  ∧ (Check w z3.NewSolver = z3.True →
     run w (arg0 :: path :: rest)
     = Returns (mkExit 0 ["smtrun " +:+ VERSION w] [])).
Proof.
  intros Hrange Hparse Hname Hnone.
  assert (Hfile : processSmtlFile w ∅ path = Returns (Some z3.NewSolver, ∅, None)).
  { unfold processSmtlFile, parseSmtlFile. rewrite Hparse.
    rewrite decide_True by exact Hname.
    rewrite (mainBody_none _ Hnone). reflexivity. }
  split; [exact Hfile|]. intros Hcheck. cbn [run]. rewrite Hfile, Hcheck.
  assert (Hkeys : rangeKeys w ∅ = []).
  { apply Permutation_nil_r. rewrite (Hrange ∅).
    rewrite map_to_list_empty. reflexivity. }
  rewrite Hkeys. reflexivity.
Qed.

Lemma run_without_main_witness :
  let file := ast.mkFile "smtl" [ast.GenDecl token.VAR [ast.ValueSpec ["x"] None []]] in
  range_visits_keys (sampleWorld file z3.True ∅)
  ∧ run (sampleWorld file z3.True ∅) ["smtrun"; "a.smtl"]
    = Returns (mkExit 0 ["smtrun 0.1"] []).
Proof.
  intros file.
  assert (Hrange : range_visits_keys (sampleWorld file z3.True ∅))
    by (intros varTab; reflexivity).
  split; [exact Hrange|].
  destruct (run_without_main (sampleWorld file z3.True ∅) "smtrun" "a.smtl" []
              file Hrange eq_refl eq_refl) as [_ H].
  - repeat constructor.
  - apply H. reflexivity.
Defined.

(** ** Panics *)

Lemma mainBody_first_without_body pre Recv Params post :
  Forall (λ D, isMain D = false) pre →
  mainBody (pre ++ ast.FuncDecl Recv "main" Params None :: post) = Panic.
Proof.
  induction 1 as [|D pre HD _ IH]; [reflexivity|].
  cbn [app]. rewrite mainBody_skip by exact HD. exact IH.
Qed.

(** X20.  When the first function named [main] of a file of package [smtl] is
    declared without a body, reading the statements of the missing body
    panics, and the run ends there, whatever the file declares after
    it. *)
Theorem run_main_without_body (w : World) arg0 path rest file
    pre Recv Params post :
  ParseFile w path = inl file →
  ast.Name file = "smtl" →
  ast.Decls file = pre ++ ast.FuncDecl Recv "main" Params None :: post →
  Forall (λ D, isMain D = false) pre →
  parseSmtlFile w path = Panic
  ∧ (∀ varTab : VarTab, processSmtlFile w varTab path = Panic)
  ∧ run w (arg0 :: path :: rest) = Panic.
Proof.
  intros Hparse Hname Hdecls Hpre.
  assert (H : parseSmtlFile w path = Panic).
  { unfold parseSmtlFile. rewrite Hparse, decide_True by exact Hname.
    rewrite Hdecls, mainBody_first_without_body by exact Hpre. reflexivity. }
  split; [exact H|].
  assert (H' : ∀ varTab : VarTab, processSmtlFile w varTab path = Panic)
    by (intros varTab; unfold processSmtlFile; rewrite H; reflexivity).
  split; [exact H'|]. cbn [run]. rewrite H'. reflexivity.
Qed.

Lemma run_main_without_body_witness :
  let file :=
    ast.mkFile "smtl"
      [ast.FuncDecl None "main" [] None; ast.FuncDecl None "main" [] (Some [])] in
  run (sampleWorld file z3.True ∅) ["smtrun"; "a.smtl"] = Panic.
Proof.
  intros file.
  destruct (run_main_without_body (sampleWorld file z3.True ∅)
              "smtrun" "a.smtl" [] file [] None []
              [ast.FuncDecl None "main" [] (Some [])]
              eq_refl eq_refl eq_refl (Forall_nil_2 _)) as (_ & _ & H).
  exact H.
Defined.

(** X21.  A [var] declaration with an empty group, [var ()], panics on
    [Specs[0]] as soon as the loop reaches it, that is when the
    statements before it have compiled. *)
Theorem processStmts_empty_var_group
    s (varTab : VarTab) pre post s1 (varTab1 : VarTab) :
  processStmts s varTab pre = Returns ((s1, varTab1), None) →
  processStmts s varTab
    (pre ++ ast.DeclStmt (ast.GenDecl token.VAR []) :: post)
  = Panic.
Proof.
  intros Hpre. rewrite (processStmts_app _ _ _ _ _ _ Hpre). reflexivity.
Qed.

Lemma processStmts_empty_var_group_witness :
  processStmts z3.NewSolver ∅ [assertStmt (ast.Ident "true")]
  = Returns ((z3.mkSolver [Some z3.CtxTrue], ∅), None)
  ∧ processStmts z3.NewSolver ∅
      ([assertStmt (ast.Ident "true")]
         ++ ast.DeclStmt (ast.GenDecl token.VAR []) :: [ast.OtherStmt])
    = Panic.
Proof.
  assert (H : processStmts z3.NewSolver ∅ [assertStmt (ast.Ident "true")]
              = Returns ((z3.mkSolver [Some z3.CtxTrue], ∅), None))
    by reflexivity.
  split; [exact H|].
  exact (processStmts_empty_var_group _ _ _ [ast.OtherStmt] _ _ H).
Defined.

(** ** Which statements compile *)

(** X22.  An expression statement compiles exactly when it is a call of the
    name [assert] on one argument that compiles without error; the
    solver then gains the argument's pointer at its end. *)
Theorem processExprStmt_accepts s (varTab : VarTab) X s' :
  processExprStmt s varTab X = (s', None)
  ↔ ∃ arg x,
      X = ast.CallExpr (ast.Ident "assert") [arg]
      ∧ processExpr varTab arg = (x, None)
      ∧ s' = z3.Assert s x.
Proof.
  split.
  - unfold processExprStmt.
    destruct X as [| | | |Fun Args| | | |]; try discriminate.
    destruct Fun; try discriminate.
    case_decide as HN; [subst|discriminate].
    destruct Args as [|arg [|arg' Args]]; try discriminate.
    destruct (processExpr varTab arg) as [x [e|]] eqn:Harg; [discriminate|].
    intros [= <-]. eauto.
  - intros (arg & x & -> & Harg & ->). cbn [processExprStmt].
    rewrite decide_True by reflexivity. rewrite Harg. reflexivity.
Qed.

Lemma processExprStmt_accepts_witness :
  processExprStmt z3.NewSolver ∅ (ast.CallExpr (ast.Ident "assert") [ast.Ident "true"])
  = (z3.Assert z3.NewSolver (Some z3.CtxTrue), None)
  ∧ ¬ (∃ s', processExprStmt z3.NewSolver ∅
               (ast.CallExpr (ast.Ident "distinct")
                  [ast.Ident "true"; ast.Ident "false"]) = (s', None)).
Proof.
  split.
  - apply processExprStmt_accepts. eexists _, _. repeat split.
  - intros [s' H]. apply processExprStmt_accepts in H as (arg & x & H & _).
    discriminate H.
Defined.

Lemma declareNames_ok_fresh sort Names (varTab varTab' : VarTab) :
  declareNames sort varTab Names = (varTab', None) →
  NoDup Names ∧ ∀ n, n ∈ Names → varTab !! n = None.
Proof.
  revert varTab. induction Names as [|name Names IH]; intros varTab.
  - intros _. split; [constructor|]. intros n Hn. apply elem_of_nil in Hn as [].
  - cbn [declareNames]. destruct (varTab !! name) eqn:Hname; [discriminate|].
    intros H. destruct (IH _ H) as [Hnd Hfresh].
    assert (Hnin : name ∉ Names).
    { intros Hin. specialize (Hfresh _ Hin).
      rewrite lookup_insert_eq in Hfresh. discriminate. }
    split; [constructor; assumption|].
    intros n [->|Hn]%elem_of_cons; [exact Hname|].
    specialize (Hfresh _ Hn).
    rewrite lookup_insert_ne in Hfresh by (intros ->; contradiction).
    exact Hfresh.
Qed.

(** X23.  A declaration of a supported type succeeds exactly when its names
    are pairwise different and none of them is in the table yet. *)
Theorem processVarSpec_succeeds_iff (varTab : VarTab) Names Type_ sort :
  sortOfType Type_ = inl sort →
  ((processVarSpec varTab Names Type_).2 = None
   ↔ NoDup Names ∧ ∀ n, n ∈ Names → varTab !! n = None).
Proof.
  intros Hsort. unfold processVarSpec. rewrite Hsort. split.
  - destruct (declareNames sort varTab Names) as [vt err] eqn:H.
    cbn [snd]. intros ->. eapply declareNames_ok_fresh, H.
  - intros [Hnd Hfresh]. rewrite declareNames_fresh by assumption. reflexivity.
Qed.

Lemma processVarSpec_succeeds_iff_witness :
  sortOfType (Some (ast.Ident "bool")) = inl z3.BoolSort
  ∧ ((processVarSpec ∅ ["p"; "p"] (Some (ast.Ident "bool"))).2 = None
     ↔ NoDup ["p"; "p"] ∧ ∀ n, n ∈ ["p"; "p"] → (∅ : VarTab) !! n = None).
Proof.
  assert (H : sortOfType (Some (ast.Ident "bool")) = inl z3.BoolSort)
    by reflexivity.
  split; [exact H|]. exact (processVarSpec_succeeds_iff ∅ _ _ _ H).
Defined.

(** ** Method calls with an argument that fails *)

(** X24.  In a method call whose receiver compiles, an argument that fails
    does not make the call fail with its error.  With exactly one
    argument compiled before it, [implies] and [iff] return their term
    over the receiver and that argument and no error; otherwise they
    fail with their arity error. *)
Theorem processCallExpr_method_failed_argument
    (varTab : VarTab) X x pre bad post e :
  processExpr varTab X = (x, None) →
  Forall (λ arg, (processExpr varTab arg).2 = None) pre →
  (processExpr varTab bad).2 = Some e →
  (∀ a, compiled varTab pre = [a] →
     processExpr varTab
       (ast.CallExpr (ast.SelectorExpr X "implies") (pre ++ bad :: post))
     = (Some (z3.Implies x a), None)
     ∧ processExpr varTab
         (ast.CallExpr (ast.SelectorExpr X "iff") (pre ++ bad :: post))
       = (Some (z3.Iff x a), None))
  ∧ (length pre ≠ 1 →
     processExpr varTab
       (ast.CallExpr (ast.SelectorExpr X "implies") (pre ++ bad :: post))
     = (None, Some ErrImpliesArity)
     ∧ processExpr varTab
         (ast.CallExpr (ast.SelectorExpr X "iff") (pre ++ bad :: post))
       = (None, Some ErrIffArity)).
Proof.
  intros HX Hpre Hbad. cbn [processExpr]. unfold processCallExpr.
  rewrite (processArgs_stops _ _ _ _ _ Hpre Hbad). cbn [processCallee].
  rewrite HX. split.
  - intros a ->. split; reflexivity.
  - intros Hlen. unfold compiled.
    destruct pre as [|A0 [|A1 pre]]; cbn [length] in Hlen;
      [split; reflexivity|contradiction|split; reflexivity].
Qed.

Lemma processCallExpr_method_failed_argument_witness :
  processExpr ∅ (ast.Ident "true") = (Some z3.CtxTrue, None)
  ∧ Forall (λ arg, (processExpr ∅ arg).2 = None) [ast.Ident "false"]
  ∧ (processExpr ∅ (ast.Ident "y")).2 = Some (ErrUnknownVariable "y")
  ∧ processExpr ∅
      (ast.CallExpr (ast.SelectorExpr (ast.Ident "true") "iff")
         ([ast.Ident "false"] ++ ast.Ident "y" :: []))
    = (Some (z3.Iff (Some z3.CtxTrue) (Some z3.CtxFalse)), None).
Proof.
  assert (HX : processExpr ∅ (ast.Ident "true") = (Some z3.CtxTrue, None))
    by reflexivity.
  assert (Hpre : Forall (λ arg, (processExpr ∅ arg).2 = None) [ast.Ident "false"])
    by (repeat constructor).
  assert (Hbad : (processExpr ∅ (ast.Ident "y")).2 = Some (ErrUnknownVariable "y"))
    by (vm_compute; reflexivity).
  split; [exact HX|]. split; [exact Hpre|]. split; [exact Hbad|].
  destruct (processCallExpr_method_failed_argument ∅ _ _ _ _ [] _ HX Hpre Hbad)
    as [H _].
  apply (H (Some z3.CtxFalse) eq_refl).
Defined.
